(** * Siamese-RPN-tensorflow: the loss module and the layer decorator

    A shallow embedding of [module/loss_module.py] (class [Loss_op]) and of
    the chaining decorator of [net/network.py] (function [layer], class
    [Network]).

    Numbers.  TensorFlow's float32 scalars are idealised as exact rationals
    [Q]; rounding, infinities and NaN are outside the model except where a
    definition says otherwise.  Integer tensors carry [Z].

    Tensors.  A tensor is its shape together with its elements in row-major
    order, which is all that [tf.reshape], the elementwise operations and
    the reductions depend on. *)

From Stdlib Require Import QArith Qabs Qminmax Lqa.
From stdpp Require Import gmap strings list pretty.

Local Open Scope Q_scope.

(** ** Errors raised while building or running the graph *)

Inductive tf_error : Type :=
  | ShapeMismatch      (* operands of an elementwise op differ in shape *)
  | BadReshape         (* the element count does not fit the target shape *)
  | IndexOutOfRange    (* gather_nd index outside the parameter tensor *)
  | LabelOutOfRange    (* sparse cross-entropy label outside [0, classes) *)
  | BadRank.           (* an operand has the wrong number of axes *)

Inductive result (A : Type) : Type :=
  | Ok (a : A)
  | Raise (e : tf_error).
Arguments Ok {A} a.
Arguments Raise {A} e.

Definition rbind {A B} (m : result A) (k : A -> result B) : result B :=
  match m with
  | Ok a => k a
  | Raise e => Raise e
  end.

Notation "'do' x <- m ; k" := (rbind m (fun x => k))
  (at level 10, x name, m at level 100, k at level 200,
   format "'[v' 'do'  x  <-  m ; '/' k ']'").

Fixpoint rmapM {A B} (f : A -> result B) (l : list A) : result (list B) :=
  match l with
  | [] => Ok []
  | a :: l' => do b <- f a; do bs <- rmapM f l'; Ok (b :: bs)
  end.

(** ** Tensors *)

Record tensor (A : Type) : Type := Tensor { shape : list nat; data : list A }.
Arguments Tensor {A} shape data.
Arguments shape {A} t.
Arguments data {A} t.

Definition numel (s : list nat) : nat := foldr Nat.mul 1%nat s.

(** A tensor is well formed when it has as many elements as its shape says. *)
Definition wf {A} (t : tensor A) : Prop := length (data t) = numel (shape t).

Module TF.

(** [tf.reshape(t, dims)] where at most one entry of [dims] is [-1].
    The missing dimension is the element count divided by the product of
    the given ones; TensorFlow refuses when that product is zero or does
    not divide the element count. *)
Definition known_dims (dims : list Z) : list nat :=
  Z.to_nat <$> filter (fun d => d ≠ (-1)%Z) dims.

Definition count_free (dims : list Z) : nat :=
  length (filter (fun d => d = (-1)%Z) dims).

Definition fill_free (n : nat) (dims : list Z) : list nat :=
  (fun d => if decide (d = (-1)%Z) then n else Z.to_nat d) <$> dims.

Definition reshape {A} (t : tensor A) (dims : list Z) : result (tensor A) :=
  let size := length (data t) in
  let p := numel (known_dims dims) in
  match count_free dims with
  | O => if decide (p = size) then Ok (Tensor (fill_free 0 dims) (data t))
         else Raise BadReshape
  | S O => if decide (p = 0%nat) then Raise BadReshape
           else if decide (size mod p = 0)%nat
                then Ok (Tensor (fill_free (size / p) dims) (data t))
                else Raise BadReshape
  | _ => Raise BadReshape
  end.

(** Elementwise binary operations on operands of one shape.  Operands of
    different shapes are refused: broadcasting between non-scalar tensors
    is not modelled. *)
Definition binop {A B C} (f : A -> B -> C) (a : tensor A) (b : tensor B)
  : result (tensor C) :=
  if decide (shape a = shape b)
  then Ok (Tensor (shape a) (zip_with f (data a) (data b)))
  else Raise ShapeMismatch.

(** Elementwise unary operations, and binary ones with a scalar operand. *)
Definition unop {A B} (f : A -> B) (a : tensor A) : tensor B :=
  Tensor (shape a) (f <$> data a).

Definition multiply := binop Qmult.
Definition subtract := binop Qminus.
Definition add := binop Qplus.
Definition abs := unop Qabs.
Definition multiply_scalar (a : tensor Q) (c : Q) := unop (fun x => x * c) a.
Definition subtract_scalar (a : tensor Q) (c : Q) := unop (fun x => x - c) a.
Definition scalar_subtract (c : Q) (a : tensor Q) := unop (fun x => c - x) a.

(** [tf.less(a, c)] against a scalar. *)
Definition Qltb (x y : Q) : bool := negb (Qle_bool y x).
Definition less_scalar (a : tensor Q) (c : Q) : tensor bool :=
  unop (fun x => Qltb x c) a.

(** [tf.cast(., tf.float32)] of a boolean tensor. *)
Definition cast_float (a : tensor bool) : tensor Q :=
  unop (fun b : bool => if b then 1 else 0) a.

Definition Qsum (l : list Q) : Q := foldr Qplus 0 l.

Definition reduce_sum (a : tensor Q) : Q := Qsum (data a).

(** [tf.reduce_mean]: the sum over the element count.  On a tensor with
    no element TensorFlow divides zero by zero and returns NaN, the one
    non-rational value the model keeps. *)
Inductive float : Type :=
  | Finite (q : Q)
  | NaN.

Definition reduce_mean (a : tensor Q) : float :=
  match data a with
  | [] => NaN
  | _ => Finite (Qsum (data a) / inject_Z (Z.of_nat (length (data a))))
  end.

(** [tf.not_equal(a, c)] on an integer tensor against a scalar. *)
Definition not_equal_scalar (a : tensor Z) (c : Z) : tensor bool :=
  unop (fun x => negb (x =? c)%Z) a.

(** [tf.cast(., tf.int32)] on an integer tensor: two's complement wrap. *)
Definition wrap32 (z : Z) : Z := ((z + 2 ^ 31) mod 2 ^ 32 - 2 ^ 31)%Z.
Definition cast_int32 (a : tensor Z) : tensor Z := unop wrap32 a.

(** The int64 tensor of shape (count, depth) that [tf.where] returns and
    [tf.gather_nd] consumes, kept row by row. *)
Record index_rows : Type := IndexRows { depth : nat; rows : list (list nat) }.

(** Row-major positions of the [true] elements. *)
Definition true_positions (l : list bool) : list nat :=
  filter (fun j => l !! j = Some true) (seq 0 (length l)).

(** The coordinates of row-major position [j] in a tensor of shape [s]. *)
Fixpoint unravel (s : list nat) (j : nat) : list nat :=
  match s with
  | [] => []
  | _ :: s' => (j / numel s')%nat :: unravel s' (j mod numel s')%nat
  end.

(** [tf.where(cond)]: the coordinates of the true elements, row-major. *)
Definition where_ (c : tensor bool) : index_rows :=
  IndexRows (length (shape c))
            (unravel (shape c) <$> true_positions (data c)).

(** The row-major position of the slice that the index prefix [idx]
    selects in a tensor of shape [s]; every coordinate is bounds-checked. *)
Fixpoint ravel (s idx : list nat) : result nat :=
  match idx, s with
  | [], _ => Ok 0%nat
  | i :: idx', d :: s' =>
      if decide (i < d)%nat
      then do o <- ravel s' idx'; Ok (i * numel s' + o)%nat
      else Raise IndexOutOfRange
  | _ :: _, [] => Raise BadRank
  end.

(** [tf.gather_nd(params, indices)]: one slice of [params] per index row,
    stacked along a new leading axis. *)
Definition gather_nd {A} (params : tensor A) (indices : index_rows)
  : result (tensor A) :=
  let rest := drop (depth indices) (shape params) in
  do slices <- rmapM (fun idx =>
                 do o <- ravel (shape params) idx;
                 Ok (take (numel rest) (drop o (data params))))
               (rows indices);
  Ok (Tensor (length (rows indices) :: rest) (concat slices)).

(** Row [j] of a matrix with [k] columns stored row-major in [l]. *)
Definition row {A} (k : nat) (l : list A) (j : nat) : list A :=
  take k (drop (j * k) l).

End TF.

(** [tf.nn.sparse_softmax_cross_entropy_with_logits] needs exponentials and
    logarithms, which the rationals lack: the per-row value (minus the log
    of the softmax probability of the labelled class) is a parameter.  The
    operation itself checks ranks, the common leading dimension and that
    every label is a class index. *)
Section CrossEntropy.

Variable softmax_xent : list Q -> Z -> Q.

Definition sparse_softmax_cross_entropy_with_logits
    (logits : tensor Q) (labels : tensor Z) : result (tensor Q) :=
  match shape logits, shape labels with
  | [m; c], [m'] =>
      if decide (m = m') then
        do xs <- rmapM (fun '(j, y) =>
                   if decide (0 <= y < Z.of_nat c)%Z
                   then Ok (softmax_xent (TF.row c (data logits) j) y)
                   else Raise LabelOutOfRange)
                 (zip (seq 0 m) (data labels));
        Ok (Tensor [m] xs)
      else Raise ShapeMismatch
  | _, _ => Raise BadRank
  end.

(** ** The classification branch of [Loss_op.loss] (lines 19 to 25) *)

Definition cls_loss_graph (batch_size : nat) (label : tensor Z)
    (pre_score : tensor Q) : result TF.float :=
  do pre_score <- TF.reshape pre_score [Z.of_nat batch_size; -1; 2]%Z;
  let pre_score_keep := TF.where_ (TF.not_equal_scalar label (-1)) in
  do pre_score_gather <- TF.gather_nd pre_score pre_score_keep;
  do pre_score_valid <- TF.reshape pre_score_gather [-1; 2]%Z;
  do label_valid_gather <- TF.gather_nd label pre_score_keep;
  do label_valid_flat <- TF.reshape label_valid_gather [-1]%Z;
  let label_valid := TF.cast_int32 label_valid_flat in
  do xent <- sparse_softmax_cross_entropy_with_logits pre_score_valid
                                                       label_valid;
  Ok (TF.reduce_mean xent).

End CrossEntropy.

(** ** The regression branch of [Loss_op.loss] (lines 27 to 34) *)

Section RegLoss.

Variable batch_size : nat.

Definition inside_graph (pre_box target_box target_inside_weight : tensor Q)
  : result (tensor Q) :=
  do pre_box <- TF.reshape pre_box [Z.of_nat batch_size; -1; 4]%Z;
  do diff <- TF.subtract pre_box target_box;
  TF.multiply target_inside_weight diff.

Definition smooth_l1_of_inside (inside target_outside_weight : tensor Q)
  : result (tensor Q) :=
  let mask := TF.cast_float (TF.less_scalar (TF.abs inside) 1) in
  do sq <- TF.multiply inside inside;
  let option1 := TF.multiply_scalar sq (1#2) in
  let option2 := TF.subtract_scalar (TF.abs inside) (1#2) in
  do lo <- TF.multiply option1 mask;
  do hi <- TF.multiply option2 (TF.scalar_subtract 1 mask);
  do both <- TF.add lo hi;
  TF.multiply both target_outside_weight.

Definition smooth_l1_graph
    (pre_box target_box target_inside_weight target_outside_weight : tensor Q)
  : result (tensor Q) :=
  do inside <- inside_graph pre_box target_box target_inside_weight;
  smooth_l1_of_inside inside target_outside_weight.

Definition reg_loss_graph
    (pre_box target_box target_inside_weight target_outside_weight : tensor Q)
  : result Q :=
  do smooth_l1 <- smooth_l1_graph pre_box target_box target_inside_weight
                                  target_outside_weight;
  Ok (TF.reduce_sum smooth_l1 * 10).

End RegLoss.

(** ** The loss object

    [Loss_op] imports [Anchor] from [module/gen_ancor.py] and [Anchor_tf]
    from [module/anchor_tf.py] and is embedded over them: the anchor
    generator is a function of the grid size, and the matcher is a
    function of the ground truth and the anchors which may also read and
    write a state of its own (the fields of the [Anchor_tf] object and the
    framework's random generator), kept in the [anchor_tf] field.

    The five tensors the matcher returns.  [label] holds the tags -1
    (ignore), 0 (background) and 1 (foreground). *)

Record matcher_out : Type := MatcherOut {
  label : tensor Z;
  target_box : tensor Q;
  target_inside_weight : tensor Q;
  target_outside_weight : tensor Q;
  all_box : tensor Q
}.

Record Loss_op (matcher_state : Type) : Type := LossOp {
  anchors : tensor Q;
  anchor_tf : matcher_state
}.
Arguments LossOp {matcher_state} anchors anchor_tf.
Arguments anchors {matcher_state} _.
Arguments anchor_tf {matcher_state} _.

Definition loss_out : Type := (TF.float * Q * tensor Z * tensor Q)%type.

Section LossOp.

Context {matcher_state : Type}.
Variable softmax_xent : list Q -> Z -> Q.
Variable Anchor : nat -> nat -> tensor Q.
Variable Anchor_tf : matcher_state.
Variable pos_neg_anchor2 :
  matcher_state -> tensor Q -> tensor Q -> result matcher_out * matcher_state.

(** [Loss_op.__init__]; [tf.convert_to_tensor] keeps shape and elements. *)
Definition init : Loss_op matcher_state :=
  LossOp (Anchor 49 49) Anchor_tf.

(** Lines 19 to 35, on the tensors the matcher returned. *)
Definition loss_of_match (batch_size : nat) (m : matcher_out)
    (pre_score pre_box : tensor Q) : result loss_out :=
  do cls_loss <- cls_loss_graph softmax_xent batch_size (label m) pre_score;
  do reg_loss <- reg_loss_graph batch_size pre_box (target_box m)
                   (target_inside_weight m) (target_outside_weight m);
  Ok (cls_loss, reg_loss, label m, target_box m).

(** [Loss_op.loss].  [gt.shape[0]] needs [gt] to have an axis.  No field
    of [self] is assigned; the matcher's state is whatever the matcher
    leaves. *)
Definition loss (self : Loss_op matcher_state) (gt pre_score pre_box : tensor Q)
  : result loss_out * Loss_op matcher_state :=
  match shape gt with
  | [] => (Raise BadRank, self)
  | batch_size :: _ =>
      let '(m, st) := pos_neg_anchor2 (anchor_tf self) gt (anchors self) in
      (do m <- m; loss_of_match batch_size m pre_score pre_box,
       LossOp (anchors self) st)
  end.

(** A training run: [loss] called on one batch after the other. *)
Fixpoint run (self : Loss_op matcher_state)
    (batches : list (tensor Q * tensor Q * tensor Q))
  : list (result loss_out) * Loss_op matcher_state :=
  match batches with
  | [] => ([], self)
  | (gt, pre_score, pre_box) :: rest =>
      let '(r, self') := loss self gt pre_score pre_box in
      let '(rs, self'') := run self' rest in
      (r :: rs, self'')
  end.

End LossOp.

(** ** The anchor matcher, from its description

    [Anchor_tf.pos_neg_anchor2] is called by [Loss_op.loss] and defined in
    [module/anchor_tf.py]; this module follows the algorithm of the
    specification (section 4.2, steps 1 to 7).  Boxes are corner boxes.  The uniform
    random choices of step 5 are resolved by a draw: a ranking of the
    anchor indices read from the random generator's tape. *)

Module Matcher.

(** Modelled from the spec: the flat configuration object with the IoU
    thresholds and the sampling caps (section 6). *)
Record config : Type := Config {
  pos_threshold : Q;
  neg_threshold : Q;
  fg_cap : nat;
  batch_budget : nat
}.

(** Modelled from the spec: an axis-aligned box by its corners
    (section 3). *)
Record box : Type := Box { x_min : Q; y_min : Q; x_max : Q; y_max : Q }.

(** Modelled from the spec: the width of a box, the "width" of the
    centre-and-size convention of section 3. *)
Definition width (b : box) : Q := x_max b - x_min b.

(** Modelled from the spec: the height of a box (section 3). *)
Definition height (b : box) : Q := y_max b - y_min b.

(** Modelled from the spec: the area of a box, the "area_a" and "area_b"
    of step 1. *)
Definition area (b : box) : Q := width b * height b.

(** Modelled from the spec: "center_x" of the centre-and-size convention
    (section 3). *)
Definition center_x (b : box) : Q := (x_min b + x_max b) / 2.

(** Modelled from the spec: "center_y" of the centre-and-size convention
    (section 3). *)
Definition center_y (b : box) : Q := (y_min b + y_max b) / 2.

(** Modelled from the spec: the "intersection-area" of step 1, the area of
    the common rectangle, zero when there is none. *)
Definition overlap (a g : box) : Q :=
  Qmax 0 (Qmin (x_max a) (x_max g) - Qmax (x_min a) (x_min g))
  * Qmax 0 (Qmin (y_max a) (y_max g) - Qmax (y_min a) (y_min g)).

(** Modelled from the spec: step 1, intersection area over union area,
    zero when the boxes do not overlap. *)
Definition iou (a g : box) : Q :=
  let i := overlap a g in
  if Qle_bool i 0 then 0 else i / (area a + area g - i).

(** Modelled from the spec: "IoU is the maximum among all anchors for that
    ground truth" (step 2): no anchor has a larger IoU. *)
Definition is_maximum (ious : list Q) (x : Q) : bool :=
  forallb (fun y => Qle_bool y x) ious.

(** Modelled from the spec: steps 2 to 4.  Foreground (1) above the
    positive threshold or at the maximum IoU over all anchors; otherwise
    background (0) below the negative threshold; otherwise ignore (-1). *)
Definition candidate (cfg : config) (ious : list Q) (x : Q) : Z :=
  if TF.Qltb (pos_threshold cfg) x || is_maximum ious x then 1%Z
  else if TF.Qltb x (neg_threshold cfg) then 0%Z
  else (-1)%Z.

(** Modelled from the spec: steps 2 to 4 for every anchor. *)
Definition candidates (cfg : config) (ious : list Q) : list Z :=
  candidate cfg ious <$> ious.

(** Modelled from the spec: the "pool" of step 5, the indices of the
    anchors that carry label [v]. *)
Definition pool (v : Z) (labels : list Z) : list nat :=
  filter (fun i => labels !! i = Some v) (seq 0 (length labels)).

(** Modelled from the spec: step 5 on one pool.  A pool within the cap is
    kept whole; a larger one is cut down to the cap, the anchors ranked
    first by the draw being the ones kept. *)
Definition subsample (cap : nat) (draw pool : list nat) : list nat :=
  if decide (length pool <= cap)%nat then pool
  else take cap (filter (fun i => i ∈ pool) draw).

(** Modelled from the spec: step 5.  Foreground is cut down to its cap,
    background fills the rest of the batch budget, and every anchor that
    is not selected becomes ignore. *)
Definition sample (cfg : config) (draw : list nat) (cand : list Z) : list Z :=
  let fg := subsample (fg_cap cfg) draw (pool 1 cand) in
  let bg := subsample (batch_budget cfg - length fg) draw (pool 0 cand) in
  imap (fun i _ => if decide (i ∈ fg) then 1%Z
                   else if decide (i ∈ bg) then 0%Z else (-1)%Z) cand.

(** Modelled from the spec: the labels of one batch element, steps 1
    to 5. *)
Definition assign_labels (cfg : config) (draw : list nat)
    (ancs : list box) (g : box) : list Z :=
  sample cfg draw (candidates cfg ((fun a => iou a g) <$> ancs)).

Section Targets.

(** The natural logarithm of step 6 is not a rational function; it is a
    parameter of the target encoding. *)
Variable ln : Q -> Q.

(** Modelled from the spec: step 6, centre offsets normalised by the
    anchor size and log ratios of width and height; zero for anchors
    that are not foreground. *)
Definition encode (a g : box) : list Q :=
  [ (center_x g - center_x a) / width a;
    (center_y g - center_y a) / height a;
    ln (width g / width a);
    ln (height g / height a) ].

(** Modelled from the spec: step 6 for one anchor, "non-foreground anchors
    get a zero target". *)
Definition target (l : Z) (a g : box) : list Q :=
  if decide (l = 1%Z) then encode a g else [0; 0; 0; 0].

(** Modelled from the spec: step 7, inside weight 1 on the four
    dimensions of a foreground anchor and 0 elsewhere. *)
Definition inside_weight (l : Z) : list Q :=
  if decide (l = 1%Z) then [1; 1; 1; 1] else [0; 0; 0; 0].

(** Modelled from the spec: step 7, outside weight one over the
    foreground count, clipped below at one, the same on every entry. *)
Definition outside_weight (labels : list Z) : Q :=
  1 / inject_Z (Z.of_nat (Nat.max 1 (length (pool 1 labels)))).

(** Modelled from the spec: one row of the "decoded_anchor_boxes" of the
    matcher's contract. *)
Definition corners (b : box) : list Q := [x_min b; y_min b; x_max b; y_max b].

(** Modelled from the spec: the boxes of a (n, 4) tensor, "one box per
    batch element" for the ground truth and one per anchor (section 3). *)
Definition boxes_of (t : tensor Q) : result (list box) :=
  match shape t with
  | [n; 4%nat] =>
      rmapM (fun j => match TF.row 4 (data t) j with
                      | [a; b; c; d] => Ok (Box a b c d)
                      | _ => Raise ShapeMismatch
                      end) (seq 0 n)
  | _ => Raise BadRank
  end.

(** Modelled from the spec: the random generator behind "subsampled
    uniformly at random" (step 5, section 9): an unbounded tape of draws
    and the position of the next one. *)
Record rng : Type := Rng { tape : nat -> list nat; cursor : nat }.

(** Modelled from the spec: the matcher's contract
    [assign(ground_truth_boxes, anchors)] of section 4.2; every batch
    element consumes one draw. *)
Definition pos_neg_anchor2 (cfg : config) (st : rng)
    (gt anchors : tensor Q) : result matcher_out * rng :=
  match boxes_of gt, boxes_of anchors with
  | Ok gts, Ok ancs =>
      let B := length gts in
      let N := length ancs in
      let labels :=
        imap (fun b g => assign_labels cfg (tape st (cursor st + b)) ancs g)
             gts in
      let per (f : Z -> box -> box -> list Q) : list Q :=
        concat (zip_with (fun ls g =>
                  concat (zip_with (fun l a => f l a g) ls ancs))
                labels gts) in
      let out :=
        MatcherOut
          (Tensor [B; N] (concat labels))
          (Tensor [B; N; 4%nat] (per target))
          (Tensor [B; N; 4%nat] (per (fun l _ _ => inside_weight l)))
          (Tensor [B; N; 4%nat]
             (concat ((fun ls => replicate (N * 4) (outside_weight ls))
                      <$> labels)))
          (Tensor [B; N; 4%nat] (per (fun _ a _ => corners a))) in
      (Ok out, Rng (tape st) (cursor st + B))
  | Raise e, _ => (Raise e, st)
  | _, Raise e => (Raise e, st)
  end.

End Targets.

End Matcher.

(** ** The layer decorator of [net/network.py]

    A layer is a graph node or a list of layers (the two-stream layers
    return [[template, detection]]).  The graph nodes themselves are
    TensorFlow's and stay abstract. *)

Module Net.

Inductive exn : Type :=
  | RuntimeError (msg : string)
  | KeyError (msg : string)
  | AssertionError
  | OtherError (msg : string).

Section Network.

Variable node : Type.

#[warnings="-register-all"]
Inductive layer_val : Type :=
  | Node (t : node)
  | Layers (ls : list layer_val).

(** The fields of a [Network] that the decorator, [feed] and
    [get_unique_name] read or write, and [k]. *)
Record Network : Type := MkNetwork {
  k : nat;
  inputs : gmap string layer_val;
  terminals : list layer_val;
  layers : gmap string layer_val;
  trainable : bool
}.

Definition set_terminals (self : Network) (ts : list layer_val) : Network :=
  MkNetwork (k self) (inputs self) ts (layers self) (trainable self).

Definition set_layer (self : Network) (name : string) (v : layer_val)
  : Network :=
  MkNetwork (k self) (inputs self) (terminals self)
            (<[name := v]> (layers self)) (trainable self).

(** An argument of [feed]: a layer name or the layer itself. *)
Inductive fed : Type :=
  | ByName (name : string)
  | ByLayer (v : layer_val).

(** The loop of [feed]: names are looked up in the layer table and each
    layer is appended to the terminals; an unknown name raises and
    leaves the terminals appended so far. *)
Fixpoint feed_loop (self : Network) (args : list fed)
  : (exn + unit) * Network :=
  match args with
  | [] => (inr tt, self)
  | a :: rest =>
      let found :=
        match a with
        | ByLayer v => inr v
        | ByName n =>
            match layers self !! n with
            | Some v => inr v
            | None => inl (KeyError ("Unknown layer name fed: " +:+ n))
            end
        end in
      match found with
      | inl e => (inl e, self)
      | inr v => feed_loop (set_terminals self (terminals self ++ [v])) rest
      end
  end.

(** [Network.feed]. *)
Definition feed (self : Network) (args : list fed) : (exn + unit) * Network :=
  match args with
  | [] => (inl AssertionError, self)
  | _ => feed_loop (set_terminals self []) args
  end.

(** [Network.get_unique_name]. *)
Definition get_unique_name (self : Network) (prefix : string) : string :=
  let ident :=
    (length (filter (fun kv : string * layer_val => String.prefix prefix kv.1 = true)
                    (map_to_list (layers self))) + 1)%nat in
  prefix +:+ "_" +:+ pretty ident.

(** A function wrapped by [@layer]: its [__name__] and what it computes
    from the network, the layer input and the layer name (its other
    arguments are fixed by the call).  It returns a layer or raises;
    the layer functions of this file assign no field of the network. *)
Record layer_op : Type := LayerOp {
  op_name : string;
  op_run : Network -> layer_val -> string -> exn + layer_val
}.

(** The name a decorated call uses: the keyword argument when given,
    an auto-generated one otherwise. *)
Definition layer_name (op : layer_op) (self : Network)
    (name : option string) : string :=
  default (get_unique_name self (op_name op)) name.

(** "Figure out the layer inputs": none when there is no terminal. *)
Definition layer_input (self : Network) : option layer_val :=
  match terminals self with
  | [] => None
  | [t] => Some t
  | ts => Some (Layers ts)
  end.

(** [layer_decorated]; on success it returns [self] for chaining. *)
Definition layer_decorated (op : layer_op) (self : Network)
    (name : option string) : (exn + unit) * Network :=
  let name := layer_name op self name in
  match layer_input self with
  | None =>
      (inl (RuntimeError ("No input variables found for layer " +:+ name +:+ ".")),
       self)
  | Some input =>
      match op_run op self input name with
      | inl e => (inl e, self)
      | inr layer_output =>
          feed (set_layer self name layer_output) [ByLayer layer_output]
      end
  end.

End Network.

Arguments Node {node} t.
Arguments Layers {node} ls.
Arguments MkNetwork {node} k inputs terminals layers trainable.
Arguments k {node} _.
Arguments inputs {node} _.
Arguments terminals {node} _.
Arguments layers {node} _.
Arguments trainable {node} _.
Arguments ByName {node} name.
Arguments ByLayer {node} v.
Arguments LayerOp {node} op_name op_run.
Arguments op_name {node} _.
Arguments op_run {node} _ _ _ _.
Arguments feed {node} self args.
Arguments get_unique_name {node} self prefix.
Arguments layer_name {node} op self name.
Arguments layer_input {node} self.
Arguments layer_decorated {node} op self name.
Arguments set_layer {node} self name v.
Arguments set_terminals {node} self ts.

End Net.

(** ** More of [net/network.py]: construction, output, loading, layers

    Python exceptions that [Net.exn] has no constructor for are
    [Net.OtherError] with the name of their class. *)

Module NetOps.

Definition IndexError : Net.exn := Net.OtherError "IndexError".
Definition ValueError : Net.exn := Net.OtherError "ValueError".
Definition AttributeError : Net.exn := Net.OtherError "AttributeError".
Definition ZeroDivisionError : Net.exn := Net.OtherError "ZeroDivisionError".
Definition UnboundLocalError : Net.exn := Net.OtherError "UnboundLocalError".
Definition NotImplementedError : Net.exn := Net.OtherError "NotImplementedError".

(** [Network.setup] of the base class. *)
Definition setup {node} (self : Net.Network node)
  : (Net.exn + unit) * Net.Network node :=
  (inl NotImplementedError, self).

(** [Network.__init__]: the fields are set ([terminals] empty, [layers] a
    copy of [inputs], [k] = 5) and then [setup], which a subclass
    overrides, builds the network. *)
Definition init {node}
    (setup : Net.Network node -> (Net.exn + unit) * Net.Network node)
    (inputs : gmap string (Net.layer_val node)) (trainable : bool)
  : (Net.exn + unit) * Net.Network node :=
  setup (Net.MkNetwork 5 inputs [] inputs trainable).

(** [Network.get_output]: [self.terminals[-1]]. *)
Definition get_output {node} (self : Net.Network node)
  : Net.exn + Net.layer_val node :=
  match last (Net.terminals self) with
  | Some v => inr v
  | None => inl IndexError
  end.

(** The number of layer names that start with [prefix], the sum of
    [Network.get_unique_name]. *)
Definition prefix_count {node} (self : Net.Network node) (prefix : string) : nat :=
  length (filter (fun kv : string * Net.layer_val node =>
                    String.prefix prefix kv.1 = true)
                 (map_to_list (Net.layers self))).

(** The name [get_unique_name] builds from an index. *)
Definition indexed_name (prefix : string) (ident : nat) : string :=
  prefix +:+ "_" +:+ pretty ident.

(** [Network.validate_padding]. *)
Definition validate_padding (padding : string) : Net.exn + unit :=
  if decide (padding = "SAME" \/ padding = "VALID") then inr tt
  else inl Net.AssertionError.

(** The keep probability that [Network.dropout] hands to [tf.nn.dropout]:
    [1 - self.use_dropout + self.use_dropout * keep_prob]. *)
Definition dropout_keep (use_dropout keep_prob : Q) : Q :=
  1 - use_dropout + use_dropout * keep_prob.

(** [Network.reshape] on a tensor: the static shape is read, then the rate
    picks the target shape; [tf.reshape] refuses a target with another
    element count. *)
Definition reshape {A} (input : tensor A) (rate : Z) : Net.exn + tensor A :=
  let target (last_dim : Z) : Net.exn + tensor A :=
    match shape input with
    | _ :: h :: w :: _ =>
        match TF.reshape input [Z.of_nat h; Z.of_nat w; 256%Z; last_dim] with
        | Ok t => inr t
        | Raise _ => inl ValueError
        end
    | _ => inl IndexError
    end in
  if (rate =? 2)%Z then target 10%Z
  else if (rate =? 4)%Z then target 20%Z
  else inl (Net.KeyError "shape is error").

(** [Network.reshape] as the decorator sees it: the layer input must be a
    tensor, a list has no [shape]. *)
Definition reshape_op {A} (rate : Z) : Net.layer_op (tensor A) :=
  Net.LayerOp "reshape" (fun _ input _ =>
    match input with
    | Net.Node t => match reshape t rate with
                    | inr t' => inr (Net.Node t')
                    | inl e => inl e
                    end
    | Net.Layers _ => inl AttributeError
    end).

End NetOps.

(** What [feed] appends for one argument: the layer itself, or the layer
    stored under the name. *)
Definition resolve {node} (self : Net.Network node) (a : Net.fed node)
  : option (Net.layer_val node) :=
  match a with
  | Net.ByLayer v => Some v
  | Net.ByName n => Net.layers self !! n
  end.

(** The layer names built from [p] and an index do not run ahead of the
    number of names that start with [p]. *)
Definition numbered {node} (self : Net.Network node) (p : string) : Prop :=
  forall j, is_Some (Net.layers self !! NetOps.indexed_name p j) ->
            (j <= NetOps.prefix_count self p)%nat.

(** ** [Network.conv_3] and [Network.load] over the TensorFlow calls they make

    The TensorFlow functions are parameters; each returns a graph node or
    raises.  The control flow, the assertions and the Python variables
    are the source's. *)

Definition ebind {A B} (m : Net.exn + A) (k : A -> Net.exn + B) : Net.exn + B :=
  match m with
  | inl e => inl e
  | inr a => k a
  end.

Notation "'py' x <- m ; k" := (ebind m (fun x => k))
  (at level 10, x name, m at level 100, k at level 200,
   format "'[v' 'py'  x  <-  m ; '/' k ']'").

Section Conv3.

Variable node : Type.
(** [t.get_shape()[-1]], [self.make_var(name, shape)], [tf.nn.conv2d] with
    its strides and padding, [tf.nn.bias_add], [tf.nn.relu], and [t[i]]
    on a tensor. *)
Variable get_channels : node -> Net.exn + nat.
Variable make_var : string -> list Q -> Net.exn + node.
Variable conv2d : node -> node -> nat * nat -> string -> Net.exn + node.
Variable bias_add : node -> node -> Net.exn + node.
Variable relu : node -> Net.exn + node.
Variable slice : node -> nat -> Net.exn + node.

(** [input[i]] followed by a tensor method: a list is indexed, a tensor is
    sliced, and a list found where a tensor is expected has no such
    method. *)
Definition getitem (input : Net.layer_val node) (i : nat) : Net.exn + node :=
  match input with
  | Net.Node t => slice t i
  | Net.Layers ls =>
      match ls !! i with
      | Some (Net.Node t) => inr t
      | Some (Net.Layers _) => inl NetOps.AttributeError
      | None => inl NetOps.IndexError
      end
  end.

(** [assert a % group == 0]. *)
Definition assert_divisible (a group : nat) : Net.exn + unit :=
  if decide (group = 0)%nat then inl NetOps.ZeroDivisionError
  else if decide (a mod group = 0)%nat then inr tt
  else inl Net.AssertionError.

(** The body of [conv_3].  The Python variable [output] is bound only by
    the branch [group == 1]; reading it unbound raises
    UnboundLocalError.  [int(c_i) / group] is a true division. *)
Definition conv_3 (input : Net.layer_val node) (k_h k_w c_o s_h s_w : nat)
    (name : string) (relu_flag : bool) (padding : string) (group : nat)
    (biased : bool) : Net.exn + Net.layer_val node :=
  let nat_Q (n : nat) : Q := inject_Z (Z.of_nat n) in
  let convolve i k := conv2d i k (s_h, s_w) padding in
  let read (output : option (node * node)) : Net.exn + node * node :=
    match output with
    | Some o => inr o
    | None => inl NetOps.UnboundLocalError
    end in
  py _ <- NetOps.validate_padding padding;
  py in0 <- getitem input 0;
  py c_i <- get_channels in0;
  py _ <- assert_divisible c_i group;
  py _ <- assert_divisible c_o group;
  let kernel_shape := [nat_Q k_h; nat_Q k_w; nat_Q c_i / nat_Q group; nat_Q c_o] in
  py kernel_t <- make_var (name +:+ "_t") kernel_shape;
  py kernel_d <- make_var (name +:+ "_d") kernel_shape;
  py output <-
    (if decide (group = 1)%nat then
       py in0 <- getitem input 0;
       py template <- convolve in0 kernel_t;
       py in1 <- getitem input 1;
       py detection <- convolve in1 kernel_d;
       inr (Some (template, detection))
     else inr None);
  py output <-
    (if biased then
       py biases <- make_var (name +:+ "_b") [nat_Q c_o];
       py o <- read output;
       py template <- bias_add o.1 biases;
       py o <- read output;
       py detection <- bias_add o.2 biases;
       inr (Some (template, detection))
     else inr output);
  py output <-
    (if relu_flag then
       py o <- read output;
       py template <- relu o.1;
       py o <- read output;
       py detection <- relu o.2;
       inr (Some (template, detection))
     else inr output);
  py o <- read output;
  inr (Net.Layers [Net.Node o.1; Net.Node o.2]).

End Conv3.

Section LoadWeights.

(** The values of variables and of the loaded arrays; whether
    [var.assign(data)] accepts the array for a variable holding a given
    value (TensorFlow raises ValueError when the shapes differ). *)
Variable value : Type.
Variable assignable : value -> value -> bool.

(** [tf.variable_scope(op_name)] and [tf.get_variable(param_name)]: the
    variable is called [op_name/param_name]. *)
Definition variable_name (op_name param_name : string) : string :=
  op_name +:+ "/" +:+ param_name.

(** The inner loop of [load] for one [op_name].  Under [reuse=True],
    [tf.get_variable] raises ValueError for a variable that does not
    exist; the [except ValueError] clause also catches a refused
    assignment.  The session is the map from variable names to values. *)
Fixpoint load_params (op_name : string) (params : list (string * value))
    (ignore_missing : bool) (session : gmap string value)
  : (Net.exn + unit) * gmap string value :=
  match params with
  | [] => (inr tt, session)
  | (param_name, data) :: rest =>
      let name := variable_name op_name param_name in
      let assigned : option (gmap string value) :=
        match session !! name with
        | Some var => if assignable var data
                      then Some (<[name := data]> session) else None
        | None => None
        end in
      match assigned with
      | Some session' => load_params op_name rest ignore_missing session'
      | None => if ignore_missing
                then load_params op_name rest ignore_missing session
                else (inl NetOps.ValueError, session)
      end
  end.

(** [Network.load] on the dictionary read from [data_path], in its
    iteration order. *)
Fixpoint load (data_dict : list (string * list (string * value)))
    (ignore_missing : bool) (session : gmap string value)
  : (Net.exn + unit) * gmap string value :=
  match data_dict with
  | [] => (inr tt, session)
  | (op_name, params) :: rest =>
      match load_params op_name params ignore_missing session with
      | (inr _, session') => load rest ignore_missing session'
      | raised => raised
      end
  end.

(** The variables a dictionary names, with the arrays it holds for them. *)
Definition entries (data_dict : list (string * list (string * value)))
  : list (string * value) :=
  flat_map (fun op => (fun pd : string * value =>
                         (variable_name op.1 pd.1, pd.2)) <$> op.2)
           data_dict.

End LoadWeights.

(** ** The two losses in the words of the specification (section 4.3)

    These definitions follow the specification, not the code; the theorems
    below compare them with [reg_loss_graph] and [cls_loss_graph].  The
    tensors are addressed by batch element [b], anchor [i] and dimension
    [j]. *)

Definition sum_upto (n : nat) (f : nat -> Q) : Q := TF.Qsum (f <$> seq 0 n).

(** Entry [(b, i, j)] of a tensor of shape (_, N, K) stored in [l]. *)
Definition entry {A} (d : A) (N K : nat) (l : list A) (b i j : nat) : A :=
  nth ((b * N + i) * K + j) l d.

(** "If |d| < 1, use 0.5 d^2; otherwise use |d| - 0.5." *)
Definition smoothed_l1 (d : Q) : Q :=
  if TF.Qltb (Qabs d) 1 then (1#2) * (d * d) else Qabs d - (1#2).

(** "For every anchor and every of its 4 target dimensions, compute
    d = inside_weight * (predicted_box - target_box).  Apply the
    smoothed-L1 transform elementwise.  Multiply the result by the outside
    weight, sum over all anchors and dimensions, then multiply by a fixed
    scale factor." *)
Definition spec_reg_loss (B N : nat) (pre tgt w_in w_out : list Q) : Q :=
  sum_upto B (fun b => sum_upto N (fun i => sum_upto 4 (fun j =>
    let d := entry 0 N 4 w_in b i j
             * (entry 0 N 4 pre b i j - entry 0 N 4 tgt b i j) in
    smoothed_l1 d * entry 0 N 4 w_out b i j)))
  * 10.

(** The anchors (b, i) of a batch, batch element by batch element. *)
Definition grid (B N : nat) : list (nat * nat) :=
  flat_map (fun b => pair b <$> seq 0 N) (seq 0 B).

(** The anchors whose label is not ignore. *)
Definition valid_anchors (B N : nat) (labels : list Z) : list (nat * nat) :=
  filter (fun bi => entry 0%Z N 1 labels bi.1 bi.2 0 ≠ (-1)%Z) (grid B N).

(** "Gather only positions where label is not ignore; compute mean
    cross-entropy between the two-class score and the binary label over
    exactly those positions." *)
Definition spec_cls_loss (xent : list Q -> Z -> Q) (B N : nat)
    (labels : list Z) (scores : list Q) : Q :=
  let valid := valid_anchors B N labels in
  TF.Qsum ((fun bi => xent [entry 0 N 2 scores bi.1 bi.2 0;
                            entry 0 N 2 scores bi.1 bi.2 1]
                           (entry 0%Z N 1 labels bi.1 bi.2 0)) <$> valid)
  / inject_Z (Z.of_nat (length valid)).

(** ** Auxiliary notions for the statements

    The slope of [f] at [x] is [s]: the difference quotients over rational
    steps tend to [s]. *)
Definition slope_at (f : Q -> Q) (x s : Q) : Prop :=
  forall eps : Q, 0 < eps ->
  exists delta : Q, 0 < delta /\
    forall h : Q, ~ h == 0 -> Qabs h < delta ->
      Qabs ((f (x + h) - f x) / h - s) < eps.

(** The two branches of the transform as the code computes them (lines 30
    and 31), on one element. *)
Definition option1 (d : Q) : Q := d * d * (1#2).
Definition option2 (d : Q) : Q := Qabs d - (1#2).
Definition mask (d : Q) : Q := if TF.Qltb (Qabs d) 1 then 1 else 0.

(** One element of [smooth_l1] (line 33) from the elements of the four
    operand tensors at the same position. *)
Definition loss_entry (p t w o : Q) : Q :=
  let inside := w * (p - t) in
  (option1 inside * mask inside + option2 inside * (1 - mask inside)) * o.

Definition loss_entries (pre tgt w_in w_out : list Q) : list Q :=
  zip_with (fun pt wo => loss_entry pt.1 pt.2 wo.1 wo.2)
           (zip pre tgt) (zip w_in w_out).

(** The transform as line 33 combines the two branches through the mask. *)
Definition smooth_l1_elem (d : Q) : Q :=
  option1 d * mask d + option2 d * (1 - mask d).

(** The positions the classification branch keeps (line 20), row-major. *)
Definition kept (labels : list Z) : list nat :=
  TF.true_positions ((fun x => negb (x =? -1)%Z) <$> labels).

(** [tf.concat([t, t], axis=0)]: a batch followed by a copy of itself. *)
Definition duplicate {A} (t : tensor A) : tensor A :=
  Tensor (match shape t with [] => [] | b :: s => (2 * b)%nat :: s end)
         (data t ++ data t).



(** ** A small batch

    One ground-truth box and three anchors: the first equal to the ground
    truth (foreground), the second far from it (background), the third
    overlapping it by half (ignore); thresholds 0.7 and 0.3, at most one
    foreground anchor and two selected anchors.  The cross-entropy and the
    logarithm are stand-ins: the statements instantiated here hold for any
    choice of them. *)

Module Ex.

Definition cfg : Matcher.config := Matcher.Config (7#10) (3#10) 1 2.
Definition xent (logits : list Q) (y : Z) : Q := nth (Z.to_nat y) logits 0.
Definition ln (x : Q) : Q := x - 1.
Definition grid_anchors (rows cols : nat) : tensor Q :=
  Tensor [3%nat; 4%nat] [0; 0; 1; 1; 5; 5; 6; 6; 0; 0; 1; 2].
Definition rng0 : Matcher.rng := Matcher.Rng (fun n => [n mod 2; (n + 1) mod 2]%nat) 0.
Definition matcher := Matcher.pos_neg_anchor2 ln cfg.
Definition self : Loss_op Matcher.rng := init grid_anchors rng0.
Definition gt : tensor Q := Tensor [1%nat; 4%nat] [0; 0; 1; 1].
Definition pre_score : tensor Q := Tensor [1%nat; 6%nat] [2; 5; 3; 1; 7; 7].
Definition pre_box : tensor Q :=
  Tensor [1%nat; 12%nat] [1#2; 0; 2; 0; 4; 4; 4; 4; 9; 9; 9; 9].
Definition pre_box_exact : tensor Q :=
  Tensor [1%nat; 12%nat] [0; 0; 0; 0; 4; 4; 4; 4; 9; 9; 9; 9].
Definition matched : matcher_out :=
  match (matcher (anchor_tf self) gt (anchors self)).1 with
  | Ok m => m
  | Raise _ => MatcherOut (Tensor [] []) (Tensor [] []) (Tensor [] [])
                          (Tensor [] []) (Tensor [] [])
  end.


Definition close_boxes : list Matcher.box :=
  [Matcher.Box 0 0 10 10; Matcher.Box 0 0 10 9].
Definition box_big : Matcher.box := Matcher.Box 0 0 10 10.


(** A network whose only terminal is its input layer, and a layer function
    that returns its input. *)
Definition net0 : Net.Network nat :=
  Net.MkNetwork 5 {["data" := Net.Node 0%nat]} [Net.Node 0%nat]
                {["data" := Net.Node 0%nat]} true.
Definition relu : Net.layer_op nat :=
  Net.LayerOp "relu" (fun _ input _ => inr input).
(** [Network.reshape] called with a rate other than 2 and 4. *)
Definition bad_reshape : Net.layer_op nat :=
  Net.LayerOp "reshape" (fun _ _ _ => inl (Net.KeyError "shape is error")).

End Ex.

(** ** Small inputs for the network and for the loss branches

    TensorFlow calls that always succeed on graph nodes numbered by
    [nat]; a weight file with one array and sessions with and without its
    variable; a batch of one ground-truth box and two anchors, the first
    tagged ignore and the second foreground. *)

Module ExNet.

Definition get_channels (t : nat) : Net.exn + nat := inr 4%nat.
Definition make_var (name : string) (shape : list Q) : Net.exn + nat := inr 7%nat.
Definition conv2d (i k : nat) (strides : nat * nat) (padding : string)
  : Net.exn + nat := inr (i + k)%nat.
Definition bias_add (t b : nat) : Net.exn + nat := inr (t + b)%nat.
Definition relu (t : nat) : Net.exn + nat := inr t.
Definition slice (t i : nat) : Net.exn + nat := inr t.
Definition pair_input : Net.layer_val nat :=
  Net.Layers [Net.Node 1%nat; Net.Node 2%nat].

Definition relu_1 : Net.Network nat :=
  Net.set_terminals (Net.set_layer Ex.net0 "relu_1" (Net.Node 0%nat))
                    [Net.Node 0%nat].
Definition relu_2 : Net.Network nat :=
  Net.set_terminals (Net.set_layer relu_1 "relu_2" (Net.Node 0%nat))
                    [Net.Node 0%nat].

Definition same_shape (var data : list nat) : bool :=
  bool_decide (length var = length data).
Definition weights : list (string * list (string * list nat)) :=
  [("conv1", [("weights", [1; 2; 3]%nat)])].
Definition session0 : gmap string (list nat) :=
  {["conv1/weights" := [0; 0; 0]%nat]}.

Definition label : tensor Z := Tensor [1%nat; 2%nat] [-1; 1]%Z.
Definition scores : tensor Q := Tensor [1%nat; 4%nat] [2; 5; 3; 1].
Definition scores' : tensor Q := Tensor [1%nat; 4%nat] [8; 9; 3; 1].
Definition all_ignored : tensor Z := Tensor [1%nat; 2%nat] [-1; -1]%Z.

End ExNet.

(** * Properties *)

(** ** Sums of rationals *)

Lemma Qsum_app (l1 l2 : list Q) : TF.Qsum (l1 ++ l2) == TF.Qsum l1 + TF.Qsum l2.
Proof.
  induction l1 as [|x l1 IH]; simpl.
  - ring.
  - rewrite IH. ring.
Qed.

Lemma Qsum_Forall2 (l1 l2 : list Q) :
  Forall2 Qeq l1 l2 -> TF.Qsum l1 == TF.Qsum l2.
Proof.
  induction 1 as [|x y l1 l2 Hxy _ IH]; simpl.
  - reflexivity.
  - rewrite Hxy, IH. reflexivity.
Qed.

Lemma Qsum_scale (c : Q) (l : list Q) :
  TF.Qsum ((fun x => x * c) <$> l) == TF.Qsum l * c.
Proof.
  induction l as [|x l IH]; simpl.
  - ring.
  - rewrite IH. ring.
Qed.

Lemma sum_upto_ext (n : nat) (f g : nat -> Q) :
  (forall i, (i < n)%nat -> f i == g i) -> sum_upto n f == sum_upto n g.
Proof.
  intros H. apply Qsum_Forall2, Forall2_fmap, Forall2_same_length_lookup.
  split; [reflexivity|].
  intros i x y Hx Hy. rewrite Hx in Hy. injection Hy as <-.
  apply lookup_seq in Hx as [-> Hi]. apply H, Hi.
Qed.

Lemma sum_upto_S (n : nat) (f : nat -> Q) :
  sum_upto (S n) f == sum_upto n f + f n.
Proof.
  unfold sum_upto. rewrite seq_S, fmap_app, Qsum_app. simpl. ring.
Qed.

Lemma sum_upto_add (m n : nat) (f : nat -> Q) :
  sum_upto (m + n) f == sum_upto m f + sum_upto n (fun j => f (m + j)%nat).
Proof.
  induction n as [|n IH].
  - rewrite Nat.add_0_r. unfold sum_upto at 3. simpl. ring.
  - rewrite Nat.add_succ_r, !sum_upto_S, IH. ring.
Qed.

(** A sum over [m * n] positions is a sum over [m] rows of [n] columns. *)
Lemma sum_upto_mul (m n : nat) (f : nat -> Q) :
  sum_upto (m * n) f
  == sum_upto m (fun a => sum_upto n (fun b => f (a * n + b)%nat)).
Proof.
  induction m as [|m IH].
  - reflexivity.
  - rewrite sum_upto_S, <- IH.
    replace (S m * n)%nat with (m * n + n)%nat by lia.
    apply sum_upto_add.
Qed.

Lemma Qsum_lookup (l : list Q) :
  TF.Qsum l == sum_upto (length l) (fun i => nth i l 0).
Proof.
  induction l as [|x l IH] using rev_ind.
  - reflexivity.
  - rewrite length_app, Nat.add_1_r, sum_upto_S, Qsum_app. simpl.
    rewrite IH, app_nth2, Nat.sub_diag by lia. simpl.
    assert (sum_upto (length l) (fun i => nth i l 0)
            == sum_upto (length l) (fun i => nth i (l ++ [x]) 0)) as ->.
    { apply sum_upto_ext. intros i Hi. rewrite app_nth1 by exact Hi. reflexivity. }
    ring.
Qed.

(** ** The tensor operations on well-shaped operands *)

(** Turn [wf t], for a tensor of known shape, into the length of its
    data. *)
Ltac wf_length W Hs := unfold wf in W; rewrite Hs in W; cbn in W.

Lemma rbind_Ok {A B} (a : A) (f : A -> result B) : rbind (Ok a) f = f a.
Proof. reflexivity. Qed.

Lemma binop_same_shape {A B C} (f : A -> B -> C) (a : tensor A) (b : tensor B) :
  shape a = shape b ->
  TF.binop f a b = Ok (Tensor (shape a) (zip_with f (data a) (data b))).
Proof. intros H. unfold TF.binop. rewrite decide_True by exact H. reflexivity. Qed.

(** [tf.reshape(t, (batch, -1, K))]. *)
Lemma reshape_batch {A} (t : tensor A) (B N K : nat) :
  (B * K <> 0)%nat -> length (data t) = (B * N * K)%nat ->
  TF.reshape t [Z.of_nat B; (-1)%Z; Z.of_nat K] = Ok (Tensor [B; N; K] (data t)).
Proof.
  intros Hp Hlen. unfold TF.reshape, TF.count_free, TF.known_dims, TF.fill_free.
  assert (HB : Z.of_nat B <> (-1)%Z) by lia.
  assert (HK : Z.of_nat K <> (-1)%Z) by lia.
  rewrite !filter_cons, !filter_nil.
  rewrite (decide_False (P := Z.of_nat B = (-1)%Z)) by exact HB.
  rewrite (decide_False (P := Z.of_nat K = (-1)%Z)) by exact HK.
  rewrite (decide_True (P := Z.of_nat B <> (-1)%Z)) by exact HB.
  rewrite (decide_True (P := Z.of_nat K <> (-1)%Z)) by exact HK.
  rewrite (decide_True (P := (-1)%Z = (-1)%Z)) by reflexivity.
  rewrite (decide_False (P := (-1)%Z <> (-1)%Z)) by (intros H; apply H; reflexivity).
  cbn [length fmap list_fmap numel foldr].
  rewrite !Nat2Z.id. rewrite Nat.mul_1_r.
  rewrite decide_False by exact Hp.
  replace (length (data t)) with (N * (B * K))%nat by lia.
  rewrite Nat.Div0.mod_mul, Nat.div_mul by exact Hp.
  rewrite decide_True by reflexivity.
  rewrite (decide_False (P := Z.of_nat B = (-1)%Z)) by exact HB.
  rewrite (decide_False (P := Z.of_nat K = (-1)%Z)) by exact HK.
  rewrite (decide_True (P := (-1)%Z = (-1)%Z)) by reflexivity.
  reflexivity.
Qed.

(** The chain of elementwise operations of lines 28 to 33, element by
    element. *)
Lemma loss_entries_graph (pre tgt w_in w_out : list Q) :
  zip_with Qmult
    (zip_with Qplus
       (zip_with Qmult
          ((fun x => x * (1#2)) <$>
             zip_with Qmult (zip_with Qmult w_in (zip_with Qminus pre tgt))
                            (zip_with Qmult w_in (zip_with Qminus pre tgt)))
          ((fun b : bool => if b then 1 else 0) <$>
             ((fun x => TF.Qltb x 1) <$>
                (Qabs <$> zip_with Qmult w_in (zip_with Qminus pre tgt)))))
       (zip_with Qmult
          ((fun x => x - (1#2)) <$>
             (Qabs <$> zip_with Qmult w_in (zip_with Qminus pre tgt)))
          ((fun x => 1 - x) <$>
             ((fun b : bool => if b then 1 else 0) <$>
                ((fun x => TF.Qltb x 1) <$>
                   (Qabs <$> zip_with Qmult w_in (zip_with Qminus pre tgt)))))))
    w_out
  = loss_entries pre tgt w_in w_out.
Proof.
  unfold loss_entries.
  revert tgt w_in w_out.
  induction pre as [|p pre IH]; intros [|t tgt] [|w w_in] [|o w_out];
    try reflexivity.
  cbn [zip_with fmap list_fmap zip].
  rewrite <- (IH tgt w_in w_out). reflexivity.
Qed.

(** Lines 27 to 33 on operands of shape (B, N, 4). *)
Lemma smooth_l1_graph_data (B N : nat) (pre tgt w_in w_out : tensor Q) :
  B <> 0%nat -> length (data pre) = (B * N * 4)%nat ->
  shape tgt = [B; N; 4%nat] -> shape w_in = [B; N; 4%nat] ->
  shape w_out = [B; N; 4%nat] ->
  smooth_l1_graph B pre tgt w_in w_out
  = Ok (Tensor [B; N; 4%nat]
          (loss_entries (data pre) (data tgt) (data w_in) (data w_out))).
Proof.
  intros HB Hlen Ht Hw Ho.
  unfold smooth_l1_graph, inside_graph.
  change 4%Z with (Z.of_nat 4).
  rewrite (reshape_batch pre B N 4) by (try exact Hlen; lia).
  rewrite rbind_Ok. unfold TF.subtract, TF.multiply, TF.add.
  rewrite binop_same_shape by (symmetry; exact Ht). rewrite rbind_Ok.
  rewrite binop_same_shape by exact Hw. rewrite rbind_Ok.
  unfold smooth_l1_of_inside, TF.multiply, TF.add.
  rewrite binop_same_shape by reflexivity. rewrite rbind_Ok.
  rewrite binop_same_shape by reflexivity. rewrite rbind_Ok.
  rewrite binop_same_shape by reflexivity. rewrite rbind_Ok.
  rewrite binop_same_shape by reflexivity. rewrite rbind_Ok.
  rewrite binop_same_shape by (cbn; rewrite Hw, Ho; reflexivity).
  cbn [shape data TF.multiply_scalar TF.subtract_scalar TF.scalar_subtract
       TF.cast_float TF.less_scalar TF.abs TF.unop].
  rewrite Hw. f_equal. f_equal. apply loss_entries_graph.
Qed.


(** ** The regression loss *)

Lemma Qltb_lt (x y : Q) : TF.Qltb x y = true <-> x < y.
Proof.
  unfold TF.Qltb. rewrite negb_true_iff, <- not_true_iff_false, Qle_bool_iff.
  split; [apply Qnot_le_lt | apply Qlt_not_le].
Qed.

Lemma loss_entry_smoothed_l1 (p t w o : Q) :
  loss_entry p t w o == smoothed_l1 (w * (p - t)) * o.
Proof.
  unfold loss_entry, smoothed_l1, option1, option2, mask.
  destruct (TF.Qltb (Qabs (w * (p - t))) 1); ring.
Qed.

Lemma loss_entries_length (pre tgt w_in w_out : list Q) (n : nat) :
  length pre = n -> length tgt = n -> length w_in = n -> length w_out = n ->
  length (loss_entries pre tgt w_in w_out) = n.
Proof.
  intros. unfold loss_entries. rewrite length_zip_with, !length_zip. lia.
Qed.

Lemma loss_entries_nth (pre tgt w_in w_out : list Q) (i : nat) :
  (i < length pre)%nat -> (i < length tgt)%nat ->
  (i < length w_in)%nat -> (i < length w_out)%nat ->
  nth i (loss_entries pre tgt w_in w_out) 0
  = loss_entry (nth i pre 0) (nth i tgt 0) (nth i w_in 0) (nth i w_out 0).
Proof.
  intros Hp Ht Hw Ho.
  destruct (lookup_lt_is_Some_2 pre i Hp) as [p Ep].
  destruct (lookup_lt_is_Some_2 tgt i Ht) as [t Et].
  destruct (lookup_lt_is_Some_2 w_in i Hw) as [w Ew].
  destruct (lookup_lt_is_Some_2 w_out i Ho) as [o Eo].
  rewrite (nth_lookup_Some _ _ _ _ Ep), (nth_lookup_Some _ _ _ _ Et),
          (nth_lookup_Some _ _ _ _ Ew), (nth_lookup_Some _ _ _ _ Eo).
  apply nth_lookup_Some. unfold loss_entries.
  rewrite lookup_zip_with, !lookup_zip_with, Ep, Et, Ew, Eo. reflexivity.
Qed.

(** The regression branch returns a value on operands of shape (B, N, 4),
    and that value is the one the specification describes. *)
Lemma reg_loss_graph_spec (B N : nat) (pre tgt w_in w_out : tensor Q) :
  B <> 0%nat -> length (data pre) = (B * N * 4)%nat ->
  shape tgt = [B; N; 4%nat] -> shape w_in = [B; N; 4%nat] ->
  shape w_out = [B; N; 4%nat] -> wf tgt -> wf w_in -> wf w_out ->
  exists r, reg_loss_graph B pre tgt w_in w_out = Ok r
            /\ r == spec_reg_loss B N (data pre) (data tgt) (data w_in)
                                 (data w_out).
Proof.
  intros HB Hlen Ht Hw Ho Wt Ww Wo.
  wf_length Wt Ht. wf_length Ww Hw. wf_length Wo Ho.
  unfold reg_loss_graph.
  rewrite (smooth_l1_graph_data B N) by assumption. rewrite rbind_Ok.
  eexists. split; [reflexivity|].
  unfold TF.reduce_sum, spec_reg_loss. cbn [data].
  apply Qmult_comp; [|reflexivity].
  rewrite Qsum_lookup.
  rewrite (loss_entries_length _ _ _ _ (B * N * 4)) by lia.
  rewrite sum_upto_mul, sum_upto_mul.
  apply sum_upto_ext. intros b Hb.
  apply sum_upto_ext. intros i Hi.
  apply sum_upto_ext. intros j Hj.
  assert ((b * N + i) * 4 + j < B * N * 4)%nat by nia.
  rewrite loss_entries_nth by lia.
  apply loss_entry_smoothed_l1.
Qed.


(** ** Gathering the positions that [tf.where] found *)

Lemma rmapM_Ok {A B} (f : A -> result B) (g : A -> B) (l : list A) :
  (forall x, x ∈ l -> f x = Ok (g x)) -> rmapM f l = Ok (g <$> l).
Proof.
  induction l as [|a l IH]; intros H; simpl.
  - reflexivity.
  - rewrite (H a) by apply list_elem_of_here. rewrite rbind_Ok.
    rewrite IH by (intros x Hx; apply H, list_elem_of_further, Hx).
    reflexivity.
Qed.

Lemma numel_app (s r : list nat) : numel (s ++ r) = (numel s * numel r)%nat.
Proof.
  induction s as [|d s IH]; simpl.
  - lia.
  - rewrite IH. lia.
Qed.

(** The coordinates that [tf.where] reports for position [j] lead
    [tf.gather_nd] back to the slice that starts at [j]. *)
Lemma ravel_unravel (s r : list nat) (j : nat) :
  (j < numel s)%nat -> TF.ravel (s ++ r) (TF.unravel s j) = Ok (j * numel r)%nat.
Proof.
  revert j. induction s as [|d s IH]; intros j Hj; simpl in *.
  - replace j with 0%nat by lia. destruct r; reflexivity.
  - assert (Hn : numel s <> 0%nat) by (intros Hz; rewrite Hz in Hj; lia).
    assert (Hq : (j / numel s < d)%nat).
    { apply Nat.Div0.div_lt_upper_bound. lia. }
    rewrite decide_True by exact Hq.
    rewrite IH by (apply Nat.mod_upper_bound, Hn).
    rewrite rbind_Ok, numel_app. f_equal.
    pose proof (Nat.div_mod j (numel s) Hn) as Hdm. nia.
Qed.

Lemma true_positions_lt (l : list bool) (j : nat) :
  j ∈ TF.true_positions l -> (j < length l)%nat.
Proof.
  unfold TF.true_positions. rewrite list_elem_of_filter, elem_of_seq. lia.
Qed.

Lemma gather_nd_where {A} (params : tensor A) (c : tensor bool) (r : list nat) :
  shape params = shape c ++ r -> wf c ->
  TF.gather_nd params (TF.where_ c)
  = Ok (Tensor (length (TF.true_positions (data c)) :: r)
          (concat (TF.row (numel r) (data params)
                   <$> TF.true_positions (data c)))).
Proof.
  intros Hs Hc. unfold TF.gather_nd, TF.where_. cbn [TF.depth TF.rows].
  rewrite Hs, drop_app_length.
  rewrite (rmapM_Ok _ (fun idx => match TF.ravel (shape c ++ r) idx with
                                  | Ok o => take (numel r) (drop o (data params))
                                  | Raise _ => []
                                  end)).
  2:{ intros idx [j [-> Hj]]%list_elem_of_fmap.
      apply true_positions_lt in Hj. rewrite Hc in Hj.
      rewrite ravel_unravel by exact Hj. reflexivity. }
  rewrite rbind_Ok, length_fmap. f_equal. f_equal. f_equal.
  rewrite <- list_fmap_compose. apply list_fmap_ext.
  intros i j Hj. cbn.
  apply list_elem_of_lookup_2, true_positions_lt in Hj. rewrite Hc in Hj.
  rewrite ravel_unravel by exact Hj. reflexivity.
Qed.


Lemma reshape_rows {A} (t : tensor A) (M K : nat) :
  K <> 0%nat -> length (data t) = (M * K)%nat ->
  TF.reshape t [(-1)%Z; Z.of_nat K] = Ok (Tensor [M; K] (data t)).
Proof.
  intros HK Hlen. unfold TF.reshape, TF.count_free, TF.known_dims, TF.fill_free.
  assert (HK' : Z.of_nat K <> (-1)%Z) by lia.
  rewrite !filter_cons, !filter_nil.
  rewrite (decide_False (P := Z.of_nat K = (-1)%Z)) by exact HK'.
  rewrite (decide_True (P := Z.of_nat K <> (-1)%Z)) by exact HK'.
  rewrite (decide_True (P := (-1)%Z = (-1)%Z)) by reflexivity.
  rewrite (decide_False (P := (-1)%Z <> (-1)%Z)) by (intros H; apply H; reflexivity).
  cbn [length fmap list_fmap numel foldr].
  rewrite !Nat2Z.id. rewrite Nat.mul_1_r.
  rewrite decide_False by exact HK.
  rewrite Hlen, Nat.Div0.mod_mul, Nat.div_mul by exact HK.
  rewrite decide_True by reflexivity.
  rewrite (decide_False (P := Z.of_nat K = (-1)%Z)) by exact HK'.
  rewrite (decide_True (P := (-1)%Z = (-1)%Z)) by reflexivity.
  reflexivity.
Qed.

Lemma reshape_flat {A} (t : tensor A) :
  TF.reshape t [(-1)%Z] = Ok (Tensor [length (data t)] (data t)).
Proof.
  unfold TF.reshape. cbn. rewrite Nat.div_1_r. reflexivity.
Qed.

Lemma row_length {A} (K : nat) (l : list A) (j : nat) :
  ((j + 1) * K <= length l)%nat -> length (TF.row K l j) = K.
Proof. intros H. unfold TF.row. rewrite length_take, length_drop. lia. Qed.

Lemma concat_rows_length {A} (K : nat) (l : list A) (js : list nat) :
  (forall j, j ∈ js -> ((j + 1) * K <= length l)%nat) ->
  length (concat (TF.row K l <$> js)) = (length js * K)%nat.
Proof.
  induction js as [|j js IH]; intros H.
  - reflexivity.
  - rewrite fmap_cons. cbn [concat length].
    rewrite length_app, row_length by apply H, list_elem_of_here.
    rewrite IH by (intros j' Hj'; apply H, list_elem_of_further, Hj'). lia.
Qed.

(** Row [k] of the stacked slices is the [k]-th slice. *)
Lemma row_concat {A} (K : nat) (l : list A) (js : list nat) (k j : nat) :
  (forall j, j ∈ js -> ((j + 1) * K <= length l)%nat) ->
  js !! k = Some j ->
  TF.row K (concat (TF.row K l <$> js)) k = TF.row K l j.
Proof.
  revert k. induction js as [|j0 js IH]; intros k H Hk; [discriminate|].
  assert (H0 : length (TF.row K l j0) = K)
    by (apply row_length, H, list_elem_of_here).
  rewrite fmap_cons. cbn [concat].
  destruct k as [|k]; cbn [lookup list_lookup] in Hk.
  - injection Hk as ->. unfold TF.row at 1. rewrite Nat.mul_0_l, drop_0.
    rewrite take_app_length' by (symmetry; exact H0). reflexivity.
  - unfold TF.row at 1.
    replace (S k * K)%nat with (length (TF.row K l j0) + k * K)%nat by lia.
    rewrite drop_app_add. apply IH; [|exact Hk].
    intros j' Hj'. apply H, list_elem_of_further, Hj'.
Qed.

Lemma row_1 {A} (d : A) (l : list A) (j : nat) :
  (j < length l)%nat -> TF.row 1 l j = [nth j l d].
Proof.
  intros Hj. unfold TF.row. rewrite Nat.mul_1_r.
  destruct (lookup_lt_is_Some_2 l j Hj) as [x Hx].
  rewrite (nth_lookup_Some _ _ _ _ Hx).
  rewrite (drop_S _ _ _ Hx). reflexivity.
Qed.

Lemma row_2 {A} (d : A) (l : list A) (j : nat) :
  (j * 2 + 1 < length l)%nat -> TF.row 2 l j = [nth (j * 2) l d; nth (j * 2 + 1) l d].
Proof.
  intros Hj. unfold TF.row.
  destruct (lookup_lt_is_Some_2 l (j * 2) ltac:(lia)) as [x Hx].
  destruct (lookup_lt_is_Some_2 l (j * 2 + 1) Hj) as [y Hy].
  rewrite (nth_lookup_Some _ _ _ _ Hx), (nth_lookup_Some _ _ _ _ Hy).
  rewrite (drop_S _ _ _ Hx). simpl. f_equal.
  rewrite Nat.add_1_r in Hy. rewrite (drop_S _ _ _ Hy). reflexivity.
Qed.


(** ** The classification loss *)

Lemma xent_rows (xent : list Q -> Z -> Q) (M C : nat) (logits : list Q)
    (ys : list Z) :
  (forall y, y ∈ ys -> (0 <= y < Z.of_nat C)%Z) ->
  sparse_softmax_cross_entropy_with_logits xent (Tensor [M; C] logits)
                                           (Tensor [M] ys)
  = Ok (Tensor [M] ((fun jy => xent (TF.row C logits jy.1) jy.2)
                    <$> zip (seq 0 M) ys)).
Proof.
  intros Hy. unfold sparse_softmax_cross_entropy_with_logits. cbn [shape data].
  rewrite decide_True by reflexivity.
  rewrite (rmapM_Ok _ (fun jy => xent (TF.row C logits jy.1) jy.2)).
  - reflexivity.
  - intros [j y] Hjy. rewrite decide_True; [reflexivity|].
    apply Hy. apply list_elem_of_lookup in Hjy as [i Hi].
    apply lookup_zip_with_Some in Hi as (a & b & E & _ & Hb).
    injection E as _ ->. apply list_elem_of_lookup_2 in Hb. exact Hb.
Qed.

Lemma wrap32_small (z : Z) : (- 2 ^ 31 <= z < 2 ^ 31)%Z -> TF.wrap32 z = z.
Proof. intros H. unfold TF.wrap32. rewrite Z.mod_small; lia. Qed.

Lemma concat_row_1 {A} (d : A) (l : list A) (js : list nat) :
  (forall j, j ∈ js -> (j < length l)%nat) ->
  concat (TF.row 1 l <$> js) = (fun j => nth j l d) <$> js.
Proof.
  induction js as [|j js IH]; intros H.
  - reflexivity.
  - rewrite !fmap_cons. cbn [concat].
    rewrite (row_1 d) by apply H, list_elem_of_here.
    rewrite IH by (intros j' Hj'; apply H, list_elem_of_further, Hj').
    reflexivity.
Qed.

Lemma cls_loss_graph_value (xent : list Q -> Z -> Q) (B N : nat)
    (label : tensor Z) (pre_score : tensor Q) :
  B <> 0%nat -> shape label = [B; N] -> wf label ->
  length (data pre_score) = (B * N * 2)%nat ->
  (forall y, y ∈ data label -> y = (-1)%Z \/ y = 0%Z \/ y = 1%Z) ->
  cls_loss_graph xent B label pre_score
  = Ok (TF.reduce_mean
          (Tensor [length (kept (data label))]
             ((fun j => xent [nth (j * 2) (data pre_score) 0;
                              nth (j * 2 + 1) (data pre_score) 0]
                             (nth j (data label) 0%Z))
              <$> kept (data label)))).
Proof.
  intros HB Hs Hwf Hlen Hlab.
  assert (HL : length (data label) = (B * N)%nat).
  { unfold wf in Hwf. rewrite Hs in Hwf. cbn in Hwf. lia. }
  assert (Hpos : forall j, j ∈ kept (data label) -> (j < B * N)%nat).
  { intros j Hj. apply true_positions_lt in Hj.
    rewrite length_fmap in Hj. lia. }
  unfold cls_loss_graph.
  change 2%Z with (Z.of_nat 2).
  rewrite (reshape_batch pre_score B N 2) by (try exact Hlen; lia).
  rewrite rbind_Ok.
  rewrite (gather_nd_where _ _ [2%nat]); cycle 1.
  { cbn. rewrite Hs. reflexivity. }
  { unfold wf. cbn. rewrite length_fmap, Hs. cbn. lia. }
  rewrite rbind_Ok.
  cbn [data shape TF.not_equal_scalar TF.unop]. fold (kept (data label)).
  change (numel [2%nat]) with 2%nat.
  rewrite (reshape_rows _ (length (kept (data label))) 2); cycle 1.
  { lia. }
  { cbn [data]. apply concat_rows_length. intros j Hj. apply Hpos in Hj. lia. }
  rewrite rbind_Ok. cbn [data].
  rewrite (gather_nd_where _ _ []); cycle 1.
  { cbn. rewrite app_nil_r. reflexivity. }
  { unfold wf. cbn. rewrite length_fmap, Hs. cbn. lia. }
  rewrite rbind_Ok.
  cbn [data shape TF.not_equal_scalar TF.unop]. fold (kept (data label)).
  change (numel []) with 1%nat.
  rewrite reshape_flat, rbind_Ok. cbn [data TF.cast_int32 TF.unop shape].
  rewrite concat_rows_length by (intros j Hj; apply Hpos in Hj; lia).
  rewrite Nat.mul_1_r.
  unfold TF.cast_int32, TF.unop. cbn [shape data].
  rewrite (concat_row_1 0%Z) by (intros j Hj; apply Hpos in Hj; lia).
  rewrite xent_rows; cycle 1.
  { intros y [y' [-> [j [-> Hj]]%list_elem_of_fmap]]%list_elem_of_fmap.
    assert (Hk := Hj). unfold kept, TF.true_positions in Hk.
    apply list_elem_of_filter in Hk as [Hk _].
    rewrite list_lookup_fmap in Hk.
    destruct (data label !! j) as [y|] eqn:Ey; [|discriminate].
    rewrite (nth_lookup_Some _ _ _ _ Ey).
    cbn in Hk. injection Hk as Hk. apply negb_true_iff, Z.eqb_neq in Hk.
    destruct (Hlab y (list_elem_of_lookup_2 _ _ _ Ey)) as [->|[->| ->]];
      [contradiction| |]; rewrite wrap32_small; cbn; lia. }
  rewrite rbind_Ok. f_equal. f_equal. f_equal.
  apply list_eq. intros k.
  rewrite !list_lookup_fmap. rewrite lookup_zip_with.
  rewrite !list_lookup_fmap.
  destruct (kept (data label) !! k) as [j|] eqn:Ek.
  - assert (Hj : j ∈ kept (data label)) by (eapply list_elem_of_lookup_2, Ek).
    rewrite lookup_seq_lt by (eapply lookup_lt_Some, Ek).
    cbn [fmap option_fmap option_map mbind option_bind fst snd Nat.add].
    f_equal.
    rewrite (row_concat 2 _ _ k j); [| |exact Ek].
    2:{ intros j' Hj'. apply Hpos in Hj'. lia. }
    rewrite (row_2 0) by (apply Hpos in Hj; lia).
    f_equal.
    assert (Hk := Hj). unfold kept, TF.true_positions in Hk.
    apply list_elem_of_filter in Hk as [Hk _].
    rewrite list_lookup_fmap in Hk.
    destruct (data label !! j) as [y|] eqn:Ey; [|discriminate].
    rewrite (nth_lookup_Some _ _ _ _ Ey).
    cbn in Hk. injection Hk as Hk. apply negb_true_iff, Z.eqb_neq in Hk.
    destruct (Hlab y (list_elem_of_lookup_2 _ _ _ Ey)) as [->|[->| ->]];
      [contradiction| |]; apply wrap32_small; cbn; lia.
  - rewrite lookup_seq_ge by (eapply lookup_ge_None, Ek). reflexivity.
Qed.


Lemma filter_fmap_comm {A B} (f : A -> B) (P : B -> Prop) (Q : A -> Prop)
    {HP : forall y, Decision (P y)} {HQ : forall x, Decision (Q x)}
    (l : list A) :
  (forall x, Q x <-> P (f x)) ->
  f <$> filter Q l = filter P (f <$> l).
Proof.
  intros HPQ. induction l as [|a l IH].
  - reflexivity.
  - rewrite fmap_cons, !filter_cons, <- IH.
    destruct (decide (P (f a))) as [Hp|Hp], (decide (Q a)) as [Hq|Hq];
      try reflexivity; exfalso; apply HPQ in Hq || apply HPQ in Hp; contradiction.
Qed.

Lemma filter_iff_in {A} (P Q : A -> Prop)
    {HP : forall x, Decision (P x)} {HQ : forall x, Decision (Q x)}
    (l : list A) :
  (forall x, x ∈ l -> P x <-> Q x) -> filter P l = filter Q l.
Proof.
  induction l as [|a l IH]; intros H.
  - reflexivity.
  - rewrite !filter_cons, IH by (intros x Hx; apply H, list_elem_of_further, Hx).
    pose proof (H a (list_elem_of_here a l)) as Ha.
    destruct (decide (P a)) as [Hp|Hp], (decide (Q a)) as [Hq|Hq];
      try reflexivity; exfalso; tauto.
Qed.

(** Row-major order: anchor (b, i) of a batch with [N] anchors per
    element sits at position [b * N + i]. *)
Lemma grid_flat (B N : nat) :
  (fun bi : nat * nat => (bi.1 * N + bi.2)%nat) <$> grid B N = seq 0 (B * N).
Proof.
  unfold grid. induction B as [|B IH].
  - reflexivity.
  - rewrite seq_S, flat_map_app, fmap_app, IH. cbn [flat_map].
    rewrite app_nil_r, <- list_fmap_compose.
    replace (S B * N)%nat with (B * N + N)%nat by lia.
    rewrite seq_app. f_equal. cbn [Nat.add].
    replace (seq (B * N) N) with (seq (B * N + 0) N) by (f_equal; lia).
    rewrite <- (fmap_add_seq (B * N) 0 N). apply list_fmap_ext.
    intros i x Hx. reflexivity.
Qed.

Lemma kept_valid_anchors (B N : nat) (labels : list Z) :
  length labels = (B * N)%nat ->
  kept labels
  = (fun bi : nat * nat => (bi.1 * N + bi.2)%nat) <$> valid_anchors B N labels.
Proof.
  intros Hlen. unfold valid_anchors, kept, TF.true_positions, entry.
  rewrite (@filter_fmap_comm _ _ _ (fun j => nth j labels 0%Z <> (-1)%Z) _
             (fun j => decide (nth j labels 0%Z <> (-1)%Z)) _ _).
  2:{ intros [b i]. cbn [fst snd]. rewrite Nat.mul_1_r, Nat.add_0_r. reflexivity. }
  rewrite grid_flat, length_fmap, Hlen.
  apply filter_iff_in. intros j Hj%elem_of_seq.
  rewrite list_lookup_fmap, nth_lookup.
  destruct (lookup_lt_is_Some_2 labels j ltac:(lia)) as [y ->]. cbn.
  split.
  - intros [= Hy%negb_true_iff%Z.eqb_neq]. exact Hy.
  - intros Hy. f_equal. apply negb_true_iff, Z.eqb_neq, Hy.
Qed.


Lemma reduce_mean_nonempty (a : tensor Q) :
  data a <> [] ->
  TF.reduce_mean a
  = TF.Finite (TF.Qsum (data a) / inject_Z (Z.of_nat (length (data a)))).
Proof. unfold TF.reduce_mean. destruct (data a); [contradiction|reflexivity]. Qed.

(** The classification branch returns the mean the specification
    describes whenever some anchor is not ignored. *)
Lemma cls_loss_graph_spec (xent : list Q -> Z -> Q) (B N : nat)
    (label : tensor Z) (pre_score : tensor Q) :
  B <> 0%nat -> shape label = [B; N] -> wf label ->
  length (data pre_score) = (B * N * 2)%nat ->
  (forall y, y ∈ data label -> y = (-1)%Z \/ y = 0%Z \/ y = 1%Z) ->
  valid_anchors B N (data label) <> [] ->
  cls_loss_graph xent B label pre_score
  = Ok (TF.Finite (spec_cls_loss xent B N (data label) (data pre_score))).
Proof.
  intros HB Hs Hwf Hlen Hlab Hne.
  assert (HL : length (data label) = (B * N)%nat).
  { unfold wf in Hwf. rewrite Hs in Hwf. cbn in Hwf. lia. }
  rewrite (cls_loss_graph_value xent B N) by assumption.
  rewrite (kept_valid_anchors B N) by exact HL.
  rewrite reduce_mean_nonempty; cbn [data].
  2:{ intros E. apply fmap_nil_inv, fmap_nil_inv in E. contradiction. }
  unfold spec_cls_loss.
  rewrite <- list_fmap_compose, !length_fmap.
  f_equal. f_equal. f_equal. f_equal.
  apply list_fmap_ext. intros k [b i] _. unfold entry. cbn [fst snd compose].
  rewrite !Nat.mul_1_r, !Nat.add_0_r. reflexivity.
Qed.


Lemma some_valid_anchor (B N : nat) (labels : list Z) :
  length labels = (B * N)%nat ->
  (exists y, y ∈ labels /\ y <> (-1)%Z) ->
  valid_anchors B N labels <> [].
Proof.
  intros Hlen (y & [j Hj]%list_elem_of_lookup & Hy) E.
  assert (Hk : j ∈ kept labels).
  { unfold kept, TF.true_positions. apply list_elem_of_filter. split.
    - rewrite list_lookup_fmap, Hj. cbn. f_equal.
      apply negb_true_iff, Z.eqb_neq, Hy.
    - apply elem_of_seq. rewrite length_fmap.
      apply lookup_lt_Some in Hj. lia. }
  rewrite (kept_valid_anchors B N), E in Hk by exact Hlen.
  apply not_elem_of_nil in Hk. exact Hk.
Qed.

(** An ignored anchor carries no loss mass: the mean does not depend on the
    scores of the anchors labelled ignore. *)
Lemma spec_cls_loss_ignores (xent : list Q -> Z -> Q) (B N : nat)
    (labels : list Z) (scores scores' : list Q) :
  (forall b i j, (b, i) ∈ valid_anchors B N labels ->
     entry 0 N 2 scores b i j = entry 0 N 2 scores' b i j) ->
  spec_cls_loss xent B N labels scores = spec_cls_loss xent B N labels scores'.
Proof.
  intros H. unfold spec_cls_loss. f_equal. f_equal.
  apply list_fmap_ext. intros k [b i] Hk. cbn [fst snd].
  apply list_elem_of_lookup_2 in Hk.
  rewrite !(H b i) by exact Hk. reflexivity.
Qed.

(** ** [Loss_op.loss] *)

Section LossFacts.

Context {matcher_state : Type}.
Variable softmax_xent : list Q -> Z -> Q.
Variable pos_neg_anchor2 :
  matcher_state -> tensor Q -> tensor Q -> result matcher_out * matcher_state.

Lemma loss_unfold (self : Loss_op matcher_state) (gt pre_score pre_box : tensor Q)
    (B : nat) (rest : list nat) (m : matcher_out) (st : matcher_state) :
  shape gt = B :: rest ->
  pos_neg_anchor2 (anchor_tf self) gt (anchors self) = (Ok m, st) ->
  loss softmax_xent pos_neg_anchor2 self gt pre_score pre_box
  = (loss_of_match softmax_xent B m pre_score pre_box, LossOp (anchors self) st).
Proof. intros Hs Hm. unfold loss. rewrite Hs, Hm. reflexivity. Qed.

Lemma loss_anchors (self : Loss_op matcher_state) (gt pre_score pre_box : tensor Q) :
  anchors (loss softmax_xent pos_neg_anchor2 self gt pre_score pre_box).2
  = anchors self.
Proof.
  unfold loss. destruct (shape gt); [reflexivity|].
  destruct (pos_neg_anchor2 _ _ _). reflexivity.
Qed.

Lemma run_anchors (batches : list (tensor Q * tensor Q * tensor Q))
    (self : Loss_op matcher_state) :
  anchors (run softmax_xent pos_neg_anchor2 self batches).2 = anchors self.
Proof.
  revert self. induction batches as [|[[gt ps] pb] rest IH]; intros self.
  - reflexivity.
  - cbn [run].
    pose proof (loss_anchors self gt ps pb) as Hl.
    destruct (loss softmax_xent pos_neg_anchor2 self gt ps pb) as [r self'].
    specialize (IH self').
    destruct (run softmax_xent pos_neg_anchor2 self' rest) as [rs self''].
    cbn [snd] in *. congruence.
Qed.

End LossFacts.


(** ** The smoothed-L1 transform at the switch point *)

Lemma slope_option1 (x : Q) : slope_at option1 x x.
Proof.
  intros eps Heps. exists eps. split; [exact Heps|].
  intros h Hh Hlt. unfold option1.
  assert (E : ((x + h) * (x + h) * (1 # 2) - x * x * (1 # 2)) / h - x
              == h * (1 # 2)) by (field; exact Hh).
  rewrite E. apply Qabs_Qlt_condition. apply Qabs_Qlt_condition in Hlt. lra.
Qed.

Lemma slope_option2_pos (x : Q) : 0 < x -> slope_at option2 x 1.
Proof.
  intros Hx eps Heps. exists x. split; [exact Hx|].
  intros h Hh Hlt. unfold option2.
  apply Qabs_Qlt_condition in Hlt.
  rewrite (Qabs_pos (x + h)), (Qabs_pos x) by lra.
  assert (E : (x + h - (1 # 2) - (x - (1 # 2))) / h - 1 == 0) by (field; exact Hh).
  rewrite E. exact Heps.
Qed.

Lemma slope_option2_neg (x : Q) : x < 0 -> slope_at option2 x (-1).
Proof.
  intros Hx eps Heps. exists (- x). split; [lra|].
  intros h Hh Hlt. unfold option2.
  apply Qabs_Qlt_condition in Hlt.
  rewrite (Qabs_neg (x + h)), (Qabs_neg x) by lra.
  assert (E : (- (x + h) - (1 # 2) - (- x - (1 # 2))) / h - -1 == 0)
    by (field; exact Hh).
  rewrite E. exact Heps.
Qed.

Lemma smooth_l1_elem_smoothed_l1 (d : Q) : smooth_l1_elem d == smoothed_l1 d.
Proof.
  unfold smooth_l1_elem, smoothed_l1, option1, option2, mask.
  destruct (TF.Qltb (Qabs d) 1); ring.
Qed.

(** At the switch point the combined transform has slope 1: it is
    differentiable there although its definition changes branch. *)
Lemma slope_smooth_l1_elem_at_1 : slope_at smooth_l1_elem 1 1.
Proof.
  intros eps Heps. exists (Qmin 1 eps). split.
  { apply Q.min_glb_lt; lra. }
  intros h Hh Hlt.
  assert (H1 : Qabs h < 1) by (eapply Qlt_le_trans; [exact Hlt|apply Q.le_min_l]).
  assert (He : Qabs h < eps) by (eapply Qlt_le_trans; [exact Hlt|apply Q.le_min_r]).
  apply Qabs_Qlt_condition in H1. apply Qabs_Qlt_condition in He.
  assert (E1 : smooth_l1_elem 1 == 1 # 2) by reflexivity.
  unfold smooth_l1_elem at 1, option1, option2, mask.
  rewrite E1.
  assert (Ea : Qabs (1 + h) == 1 + h) by (apply Qabs_pos; lra).
  destruct (TF.Qltb (Qabs (1 + h)) 1) eqn:Eb.
  - assert (E : ((1 + h) * (1 + h) * (1 # 2) * 1
                 + (Qabs (1 + h) - (1 # 2)) * (1 - 1) - (1 # 2)) / h - 1
                == h * (1 # 2)) by (field; exact Hh).
    rewrite E. apply Qabs_Qlt_condition. lra.
  - assert (E : ((1 + h) * (1 + h) * (1 # 2) * 0
                 + (Qabs (1 + h) - (1 # 2)) * (1 - 0) - (1 # 2)) / h - 1
                == 0) by (rewrite Ea; field; exact Hh).
    rewrite E. exact Heps.
Qed.


(** ** Single anchors and the outside weight *)

Lemma loss_entry_zero_inside (p t w o : Q) :
  w * (p - t) == 0 -> loss_entry p t w o == 0.
Proof.
  intros H. unfold loss_entry, option1, option2, mask. cbv zeta.
  assert (Ha : Qabs (w * (p - t)) == 0) by (rewrite H; reflexivity).
  assert (Hb : TF.Qltb (Qabs (w * (p - t))) 1 = true)
    by (apply Qltb_lt; rewrite Ha; reflexivity).
  rewrite Hb, Ha, H. ring.
Qed.

Lemma loss_entry_scale (p t w o c : Q) :
  loss_entry p t w (o * c) == loss_entry p t w o * c.
Proof. unfold loss_entry. cbv zeta. ring. Qed.

Lemma loss_entries_scale (c : Q) (pre tgt w_in w_out : list Q) :
  Forall2 Qeq (loss_entries pre tgt w_in ((fun x => x * c) <$> w_out))
              ((fun x => x * c) <$> loss_entries pre tgt w_in w_out).
Proof.
  unfold loss_entries. revert tgt w_in w_out.
  induction pre as [|p pre IH]; intros [|t tgt] [|w w_in] [|o w_out];
    try apply Forall2_nil_2.
  rewrite fmap_cons. cbn [zip_with fmap list_fmap].
  apply Forall2_cons_2; [apply loss_entry_scale|apply IH].
Qed.

Lemma loss_entries_app (p1 p2 t1 t2 w1 w2 o1 o2 : list Q) :
  length p1 = length t1 -> length p1 = length w1 -> length p1 = length o1 ->
  loss_entries (p1 ++ p2) (t1 ++ t2) (w1 ++ w2) (o1 ++ o2)
  = loss_entries p1 t1 w1 o1 ++ loss_entries p2 t2 w2 o2.
Proof.
  intros Ht Hw Ho. unfold loss_entries.
  rewrite !zip_with_app by (rewrite ?length_zip_with; lia). reflexivity.
Qed.

Lemma entry_loss_entries (B N : nat) (pre tgt w_in w_out : list Q) (b i j : nat) :
  length pre = (B * N * 4)%nat -> length tgt = (B * N * 4)%nat ->
  length w_in = (B * N * 4)%nat -> length w_out = (B * N * 4)%nat ->
  (b < B)%nat -> (i < N)%nat -> (j < 4)%nat ->
  entry 0 N 4 (loss_entries pre tgt w_in w_out) b i j
  = loss_entry (entry 0 N 4 pre b i j) (entry 0 N 4 tgt b i j)
               (entry 0 N 4 w_in b i j) (entry 0 N 4 w_out b i j).
Proof.
  intros Hp Ht Hw Ho Hb Hi Hj. unfold entry.
  assert ((b * N + i) * 4 + j < B * N * 4)%nat by nia.
  apply loss_entries_nth; lia.
Qed.


(** ** The matcher's draws *)

Lemma rmapM_length {A B} (f : A -> result B) (l : list A) (r : list B) :
  rmapM f l = Ok r -> length r = length l.
Proof.
  revert r. induction l as [|a l IH]; intros r; simpl.
  - intros [= <-]. reflexivity.
  - destruct (f a) as [b|e]; [|discriminate]. cbn.
    destruct (rmapM f l) as [bs|e]; [|discriminate]. cbn.
    intros [= <-]. cbn. f_equal. apply IH. reflexivity.
Qed.

Lemma boxes_of_shape (t : tensor Q) (bs : list Matcher.box) :
  Matcher.boxes_of t = Ok bs -> shape t = [length bs; 4%nat].
Proof.
  unfold Matcher.boxes_of.
  destruct (shape t) as [|n [|k [|? ?]]]; try discriminate.
  2: do 5 (destruct k as [|k]; try discriminate).
  do 5 (destruct k as [|k]; try discriminate).
  intros H%rmapM_length. rewrite length_seq in H. congruence.
Qed.


(** ** The matcher's labels *)

Lemma candidate_maximum (cfg : Matcher.config) (ious : list Q) (x : Q) :
  Matcher.is_maximum ious x = true -> Matcher.candidate cfg ious x = 1%Z.
Proof.
  intros H. unfold Matcher.candidate. rewrite H, orb_true_r. reflexivity.
Qed.

Lemma pool_spec (v : Z) (labels : list Z) (i : nat) :
  i ∈ Matcher.pool v labels <-> labels !! i = Some v.
Proof.
  unfold Matcher.pool. rewrite list_elem_of_filter, elem_of_seq. split.
  - intros [H _]. exact H.
  - intros H. split; [exact H|]. apply lookup_lt_Some in H. lia.
Qed.

Lemma subsample_subset (cap : nat) (draw pool : list nat) (i : nat) :
  i ∈ Matcher.subsample cap draw pool -> i ∈ pool.
Proof.
  unfold Matcher.subsample. case_decide as Hc; [auto|].
  intros (k & Hk & _)%elem_of_take.
  apply list_elem_of_lookup_2, list_elem_of_filter in Hk as [Hk _]. exact Hk.
Qed.

Lemma subsample_within_cap (cap : nat) (draw pool : list nat) :
  (length pool <= cap)%nat -> Matcher.subsample cap draw pool = pool.
Proof. intros H. unfold Matcher.subsample. rewrite decide_True by exact H. reflexivity. Qed.

Lemma subsample_nonempty (cap : nat) (draw pool : list nat) :
  pool <> [] -> (1 <= cap)%nat -> (forall i, i ∈ pool -> i ∈ draw) ->
  exists i, i ∈ Matcher.subsample cap draw pool.
Proof.
  intros Hp Hc Hd. unfold Matcher.subsample. case_decide as Hl.
  - destruct pool as [|i pool]; [contradiction|].
    exists i. apply list_elem_of_here.
  - destruct pool as [|i pool]; [contradiction|].
    assert (Hi : i ∈ filter (fun j => j ∈ i :: pool) draw).
    { apply list_elem_of_filter. split; [apply list_elem_of_here|].
      apply Hd, list_elem_of_here. }
    destruct (filter (fun j => j ∈ i :: pool) draw) as [|j l] eqn:E.
    + apply not_elem_of_nil in Hi. contradiction.
    + exists j. destruct cap as [|cap]; [lia|]. cbn. apply list_elem_of_here.
Qed.

Lemma sample_foreground (cfg : Matcher.config) (draw : list nat)
    (cand : list Z) (i : nat) :
  (i < length cand)%nat ->
  i ∈ Matcher.subsample (Matcher.fg_cap cfg) draw (Matcher.pool 1 cand) ->
  Matcher.sample cfg draw cand !! i = Some 1%Z.
Proof.
  intros Hi Hin. unfold Matcher.sample. rewrite list_lookup_imap.
  destruct (lookup_lt_is_Some_2 cand i Hi) as [c ->]. cbn.
  rewrite decide_True by exact Hin. reflexivity.
Qed.

(** A non-empty list of rationals has a greatest element. *)
Lemma maximum_exists (ious : list Q) :
  ious <> [] -> exists i x, ious !! i = Some x /\ Matcher.is_maximum ious x = true.
Proof.
  induction ious as [|y l IH]; [contradiction|]. intros _.
  destruct l as [|z l'].
  - exists 0%nat, y. split; [reflexivity|]. cbn.
    rewrite andb_true_r. apply Qle_bool_iff, Qle_refl.
  - destruct IH as (i & x & Hx & Hmax); [discriminate|].
    unfold Matcher.is_maximum in *. rewrite forallb_forall in Hmax.
    destruct (Qlt_le_dec x y) as [Hlt|Hle].
    + exists 0%nat, y. split; [reflexivity|].
      apply forallb_forall. intros w [<-|Hw].
      * apply Qle_bool_iff, Qle_refl.
      * apply Qle_bool_iff. specialize (Hmax w Hw).
        apply Qle_bool_iff in Hmax. lra.
    + exists (S i), x. split; [exact Hx|].
      apply forallb_forall. intros w [<-|Hw].
      * apply Qle_bool_iff, Hle.
      * apply Hmax, Hw.
Qed.


(** An anchor that is not foreground gets inside weight zero on its four
    dimensions (step 7). *)
Lemma inside_weight_not_foreground (l : Z) :
  l <> 1%Z -> Matcher.inside_weight l = [0; 0; 0; 0].
Proof. intros H. unfold Matcher.inside_weight. rewrite decide_False by exact H. reflexivity. Qed.

(** ** The layer decorator *)

Lemma feed_one_layer {node : Type} (self : Net.Network node)
    (v : Net.layer_val node) :
  Net.feed self [Net.ByLayer v] = (inr tt, Net.set_terminals self [v]).
Proof. reflexivity. Qed.


(** [Network.reshape] with a rate other than 2 and 4 raises KeyError; the
    decorated call passes the exception on and records nothing. *)
Example reshape_bad_rate_propagates :
  Net.layer_decorated Ex.bad_reshape Ex.net0 None
  = (inl (Net.KeyError "shape is error"), Ex.net0).
Proof. reflexivity. Qed.

(** ** The shapes of the matcher's tensors *)

Lemma concat_length_uniform {A} (n : nat) (ls : list (list A)) :
  Forall (fun l => length l = n) ls -> length (concat ls) = (length ls * n)%nat.
Proof.
  induction 1 as [|l ls Hl _ IH]; cbn [concat length].
  - reflexivity.
  - rewrite length_app, Hl, IH. lia.
Qed.

Lemma sample_length (cfg : Matcher.config) (draw : list nat) (cand : list Z) :
  length (Matcher.sample cfg draw cand) = length cand.
Proof. unfold Matcher.sample. apply length_imap. Qed.

Lemma assign_labels_length (cfg : Matcher.config) (draw : list nat)
    (ancs : list Matcher.box) (g : Matcher.box) :
  length (Matcher.assign_labels cfg draw ancs g) = length ancs.
Proof.
  unfold Matcher.assign_labels, Matcher.candidates.
  rewrite sample_length, !length_fmap. reflexivity.
Qed.

Lemma assign_labels_range (cfg : Matcher.config) (draw : list nat)
    (ancs : list Matcher.box) (g : Matcher.box) (y : Z) :
  y ∈ Matcher.assign_labels cfg draw ancs g ->
  y = (-1)%Z \/ y = 0%Z \/ y = 1%Z.
Proof.
  unfold Matcher.assign_labels, Matcher.sample.
  intros (i & c & -> & _)%elem_of_lookup_imap.
  repeat case_decide; auto.
Qed.

(** On a ground truth of shape (B, 4) and anchors of shape (N, 4) the
    matcher returns labels of shape (B, N) with values -1, 0 and 1, and
    targets and weights of shape (B, N, 4). *)
Lemma pos_neg_anchor2_shapes (ln : Q -> Q) (cfg : Matcher.config)
    (st : Matcher.rng) (gt anchors : tensor Q) (gts ancs : list Matcher.box)
    (m : matcher_out) :
  Matcher.boxes_of gt = Ok gts -> Matcher.boxes_of anchors = Ok ancs ->
  (Matcher.pos_neg_anchor2 ln cfg st gt anchors).1 = Ok m ->
  let B := length gts in
  let N := length ancs in
  (shape (label m) = [B; N] /\ wf (label m)
   /\ forall y, y ∈ data (label m) -> y = (-1)%Z \/ y = 0%Z \/ y = 1%Z)
  /\ (shape (target_box m) = [B; N; 4%nat] /\ wf (target_box m))
  /\ (shape (target_inside_weight m) = [B; N; 4%nat]
      /\ wf (target_inside_weight m))
  /\ (shape (target_outside_weight m) = [B; N; 4%nat]
      /\ wf (target_outside_weight m)).
Proof.
  intros Hg Ha. unfold Matcher.pos_neg_anchor2. rewrite Hg, Ha. cbn [fst].
  intros [= <-]. cbn [label target_box target_inside_weight
                      target_outside_weight shape data].
  set (B := length gts). set (N := length ancs).
  set (labels := imap _ gts).
  assert (HlB : length labels = B) by apply length_imap.
  assert (HlN : Forall (fun ls => length ls = N) labels).
  { apply Forall_forall. intros ls (b & g & -> & _)%elem_of_lookup_imap.
    apply assign_labels_length. }
  assert (Hper : forall f : Z -> Matcher.box -> Matcher.box -> list Q,
            (forall l a g, length (f l a g) = 4%nat) ->
            length (concat (zip_with (fun ls g =>
                      concat (zip_with (fun l a => f l a g) ls ancs))
                    labels gts)) = (B * (N * (4 * 1)))%nat).
  { intros f Hf. rewrite (concat_length_uniform (N * 4)).
    - rewrite length_zip_with, HlB. fold B. lia.
    - apply Forall_forall. intros x [k Hk]%list_elem_of_lookup.
      apply lookup_zip_with_Some in Hk as (ls & g & -> & Hls & _).
      rewrite (concat_length_uniform 4).
      + rewrite length_zip_with.
        rewrite (proj1 (Forall_lookup _ _) HlN _ _ Hls). fold N. lia.
      + apply Forall_forall. intros y [j Hj]%list_elem_of_lookup.
        apply lookup_zip_with_Some in Hj as (l & a & -> & _ & _). apply Hf. }
  repeat split; unfold wf; cbn [shape data numel foldr].
  - rewrite (concat_length_uniform N) by exact HlN. lia.
  - intros y Hy. apply list_elem_of_In, in_concat in Hy as (ls & Hls & Hy).
    apply list_elem_of_In in Hls. apply list_elem_of_In in Hy.
    apply elem_of_lookup_imap in Hls as (b & g & -> & _).
    eapply assign_labels_range, Hy.
  - apply Hper. intros l a g. unfold Matcher.target, Matcher.encode.
    case_decide; reflexivity.
  - apply Hper. intros l a g. unfold Matcher.inside_weight.
    case_decide; reflexivity.
  - rewrite (concat_length_uniform (N * 4)).
    + rewrite length_fmap, HlB. lia.
    + apply Forall_forall. intros x (ls & -> & _)%list_elem_of_fmap.
      apply length_replicate.
Qed.

Lemma candidates_maximum (cfg : Matcher.config) (ious : list Q) (i : nat) (x : Q) :
  ious !! i = Some x -> Matcher.is_maximum ious x = true ->
  Matcher.candidates cfg ious !! i = Some 1%Z.
Proof.
  intros Hx Hmax. unfold Matcher.candidates.
  rewrite list_lookup_fmap, Hx. cbn. f_equal. apply candidate_maximum, Hmax.
Qed.

(** Whenever there is an anchor, the cap is at least one and the draw ranks
    every anchor, some anchor is returned foreground. *)
Lemma assign_labels_some_foreground (cfg : Matcher.config) (draw : list nat)
    (ancs : list Matcher.box) (g : Matcher.box) :
  ancs <> [] -> (1 <= Matcher.fg_cap cfg)%nat ->
  (forall i, (i < length ancs)%nat -> i ∈ draw) ->
  exists i, Matcher.assign_labels cfg draw ancs g !! i = Some 1%Z.
Proof.
  intros Hne Hcap Hdraw.
  set (ious := (fun a => Matcher.iou a g) <$> ancs).
  assert (Hlen : length (Matcher.candidates cfg ious) = length ancs).
  { unfold Matcher.candidates, ious. rewrite !length_fmap. reflexivity. }
  destruct (maximum_exists ious) as (i & x & Hx & Hmax).
  { unfold ious. intros E%fmap_nil_inv. contradiction. }
  pose proof (candidates_maximum cfg ious i x Hx Hmax) as Hc.
  destruct (subsample_nonempty (Matcher.fg_cap cfg) draw
              (Matcher.pool 1 (Matcher.candidates cfg ious)))
    as [j Hj].
  - intros E. pose proof (proj2 (pool_spec 1 _ i) Hc) as Hi.
    rewrite E in Hi. apply not_elem_of_nil in Hi. exact Hi.
  - exact Hcap.
  - intros k Hk%pool_spec%lookup_lt_Some. apply Hdraw. lia.
  - exists j. unfold Matcher.assign_labels. fold ious.
    apply sample_foreground; [|exact Hj].
    apply subsample_subset, pool_spec, lookup_lt_Some in Hj. exact Hj.
Qed.

Lemma nth_concat_uniform {A} (n : nat) (ls : list (list A)) (k r : nat) (d : A) :
  Forall (fun l => length l = n) ls -> (r < n)%nat ->
  nth (k * n + r) (concat ls) d = nth r (nth k ls []) d.
Proof.
  intros H Hr. revert k. induction H as [|l ls Hl _ IH]; intros k.
  - cbn [concat]. destruct k; cbn [nth]; destruct (_ + r)%nat, r; reflexivity.
  - cbn [concat]. destruct k as [|k]; cbn [nth].
    + rewrite Nat.mul_0_l, Nat.add_0_l. apply app_nth1. lia.
    + rewrite app_nth2 by lia.
      replace (S k * n + r - length l)%nat with (k * n + r)%nat by lia.
      apply IH.
Qed.

(** In the tensors the matcher returns, an anchor that is not labelled
    foreground has inside weight zero on its four dimensions. *)
Lemma pos_neg_anchor2_inside_weight (ln : Q -> Q) (cfg : Matcher.config)
    (st : Matcher.rng) (gt anchors : tensor Q) (gts ancs : list Matcher.box)
    (m : matcher_out) (b i j : nat) :
  Matcher.boxes_of gt = Ok gts -> Matcher.boxes_of anchors = Ok ancs ->
  (Matcher.pos_neg_anchor2 ln cfg st gt anchors).1 = Ok m ->
  (b < length gts)%nat -> (i < length ancs)%nat -> (j < 4)%nat ->
  entry 0%Z (length ancs) 1 (data (label m)) b i 0 <> 1%Z ->
  entry 0 (length ancs) 4 (data (target_inside_weight m)) b i j = 0.
Proof.
  intros Hg Ha. unfold Matcher.pos_neg_anchor2. rewrite Hg, Ha. cbn [fst].
  intros [= <-] Hb Hi Hj. cbn [label target_inside_weight data]. unfold entry.
  set (N := length ancs) in *.
  set (labels := imap _ gts).
  assert (HlN : Forall (fun ls => length ls = N) labels).
  { apply Forall_forall. intros ls (b' & g & -> & _)%elem_of_lookup_imap.
    apply assign_labels_length. }
  destruct (lookup_lt_is_Some_2 gts b Hb) as [g Eg].
  assert (El : labels !! b = Some (Matcher.assign_labels cfg
                 (Matcher.tape st (Matcher.cursor st + b)) ancs g)).
  { unfold labels. rewrite list_lookup_imap, Eg. reflexivity. }
  set (ls := Matcher.assign_labels cfg _ ancs g) in El.
  assert (Hls : length ls = N) by apply assign_labels_length.
  destruct (lookup_lt_is_Some_2 ls i ltac:(lia)) as [l Ei].
  destruct (lookup_lt_is_Some_2 ancs i Hi) as [a Eai].
  (* the label of anchor (b, i) *)
  rewrite Nat.mul_1_r, Nat.add_0_r.
  rewrite (nth_concat_uniform N labels b i 0%Z HlN) by exact Hi.
  rewrite (nth_lookup_Some _ _ _ _ El), (nth_lookup_Some _ _ _ _ Ei).
  intros Hl.
  (* its inside weight *)
  replace ((b * N + i) * 4 + j)%nat with (b * (N * 4) + (i * 4 + j))%nat by lia.
  rewrite (nth_concat_uniform (N * 4)); [| |lia].
  2:{ apply Forall_forall. intros x [k Hk]%list_elem_of_lookup.
      apply lookup_zip_with_Some in Hk as (ls' & g' & -> & Hls' & _).
      rewrite (concat_length_uniform 4).
      - rewrite length_zip_with.
        rewrite (proj1 (Forall_lookup _ _) HlN _ _ Hls'). fold N. lia.
      - apply Forall_forall. intros y [k' Hk']%list_elem_of_lookup.
        apply lookup_zip_with_Some in Hk' as (l' & a' & -> & _ & _).
        unfold Matcher.inside_weight. case_decide; reflexivity. }
  erewrite (nth_lookup_Some _ b); cycle 1.
  { rewrite lookup_zip_with, El, Eg. reflexivity. }
  rewrite (nth_concat_uniform 4); [| |exact Hj].
  2:{ apply Forall_forall. intros y [k' Hk']%list_elem_of_lookup.
      apply lookup_zip_with_Some in Hk' as (l' & a' & -> & _ & _).
      unfold Matcher.inside_weight. case_decide; reflexivity. }
  erewrite (nth_lookup_Some _ i); cycle 1.
  { rewrite lookup_zip_with, Ei, Eai. reflexivity. }
  unfold Matcher.inside_weight. rewrite decide_False by exact Hl.
  destruct j as [|[|[|[|j]]]]; [reflexivity..|lia].
Qed.

(** ** [Loss_op.loss] over the matcher of the specification

    On a ground truth of shape (B, 4) with B > 0, anchors of shape (N, 4)
    with N > 0, scores with B * N * 2 elements and boxes with B * N * 4
    elements, [loss] returns, and returns the two losses of the
    specification, provided the cap allows a foreground anchor and the
    draws rank every anchor. *)
Lemma loss_returns (xent : list Q -> Z -> Q) (ln : Q -> Q)
    (cfg : Matcher.config) (self : Loss_op Matcher.rng)
    (gt pre_score pre_box : tensor Q) (gts ancs : list Matcher.box) :
  Matcher.boxes_of gt = Ok gts -> Matcher.boxes_of (anchors self) = Ok ancs ->
  gts <> [] -> ancs <> [] -> (1 <= Matcher.fg_cap cfg)%nat ->
  (forall b i, (i < length ancs)%nat ->
     i ∈ Matcher.tape (anchor_tf self) (Matcher.cursor (anchor_tf self) + b)) ->
  length (data pre_score) = (length gts * length ancs * 2)%nat ->
  length (data pre_box) = (length gts * length ancs * 4)%nat ->
  exists (m : matcher_out) (reg : Q),
    (loss xent (Matcher.pos_neg_anchor2 ln cfg) self gt pre_score pre_box).1
    = Ok (TF.Finite (spec_cls_loss xent (length gts) (length ancs)
                                   (data (label m)) (data pre_score)),
          reg, label m, target_box m)
    /\ reg == spec_reg_loss (length gts) (length ancs) (data pre_box)
                (data (target_box m)) (data (target_inside_weight m))
                (data (target_outside_weight m)).
Proof.
  intros Hg Ha Hgne Hane Hcap Hdraw Hps Hpb.
  destruct (Matcher.pos_neg_anchor2 ln cfg (anchor_tf self) gt (anchors self))
    as [r st] eqn:Em.
  assert (Hr : exists m, r = Ok m).
  { revert Em. unfold Matcher.pos_neg_anchor2. rewrite Hg, Ha.
    intros [= <- _]. eauto. }
  destruct Hr as [m ->].
  pose proof (pos_neg_anchor2_shapes ln cfg (anchor_tf self) gt (anchors self)
                gts ancs m Hg Ha) as Hsh.
  rewrite Em in Hsh. specialize (Hsh eq_refl).
  destruct Hsh as ((Hls & Hlw & Hrange) & (Hts & Htw) & (Hws & Hww) & (Hos & How)).
  assert (HB : length gts <> 0%nat) by (destruct gts; [contradiction|discriminate]).
  assert (Hfg : exists y, y ∈ data (label m) /\ y <> (-1)%Z).
  { exists 1%Z. split; [|discriminate].
    revert Em. unfold Matcher.pos_neg_anchor2. rewrite Hg, Ha.
    intros [= <- _]. cbn [label data].
    destruct gts as [|g gts]; [contradiction|]. cbn [imap concat].
    apply elem_of_app. left.
    destruct (assign_labels_some_foreground cfg
                (Matcher.tape (anchor_tf self) (Matcher.cursor (anchor_tf self) + 0))
                ancs g Hane Hcap) as [i Hi].
    - intros i Hi. apply Hdraw, Hi.
    - eapply list_elem_of_lookup_2, Hi. }
  destruct (reg_loss_graph_spec (length gts) (length ancs) pre_box (target_box m)
              (target_inside_weight m) (target_outside_weight m))
    as (reg & Hreg & Hspec); try assumption.
  exists m, reg. split; [|exact Hspec].
  rewrite (loss_unfold xent _ self gt pre_score pre_box (length gts) [4%nat] m st
             (boxes_of_shape _ _ Hg) Em).
  cbn [fst]. unfold loss_of_match.
  rewrite (cls_loss_graph_spec xent (length gts) (length ancs)); try assumption.
  - rewrite rbind_Ok, Hreg. reflexivity.
  - apply some_valid_anchor; [|exact Hfg].
    wf_length Hlw Hls. lia.
Qed.

(** * The claims *)



(** C2.  On every batch in which some anchor is not labelled ignore (-1),
    the classification loss that [Loss_op.loss] returns is the mean of the
    two-class cross-entropy over exactly the anchors whose label is not
    -1: the ignored anchors are left out of the sum and of the count, and
    their scores have no influence on what [loss] returns. *)
Theorem loss_cls_loss_matches_spec {matcher_state : Type}
    (softmax_xent : list Q -> Z -> Q)
    (pos_neg_anchor2 : matcher_state -> tensor Q -> tensor Q ->
                       result matcher_out * matcher_state)
    (self : Loss_op matcher_state) (gt pre_score pre_box : tensor Q)
    (B N : nat) (rest : list nat) (m : matcher_out) (st : matcher_state)
    (reg : Q) :
  shape gt = B :: rest -> B <> 0%nat ->
  pos_neg_anchor2 (anchor_tf self) gt (anchors self) = (Ok m, st) ->
  shape (label m) = [B; N] -> wf (label m) ->
  (forall y, y ∈ data (label m) -> y = (-1)%Z \/ y = 0%Z \/ y = 1%Z) ->
  (exists y, y ∈ data (label m) /\ y <> (-1)%Z) ->
  length (data pre_score) = (B * N * 2)%nat ->
  reg_loss_graph B pre_box (target_box m) (target_inside_weight m)
                 (target_outside_weight m) = Ok reg ->
  (loss softmax_xent pos_neg_anchor2 self gt pre_score pre_box).1
  = Ok (TF.Finite (spec_cls_loss softmax_xent B N (data (label m))
                                 (data pre_score)),
        reg, label m, target_box m)
  /\ forall pre_score' : tensor Q,
       length (data pre_score') = (B * N * 2)%nat ->
       (forall b i j, (b, i) ∈ valid_anchors B N (data (label m)) ->
          entry 0 N 2 (data pre_score') b i j
          = entry 0 N 2 (data pre_score) b i j) ->
       (loss softmax_xent pos_neg_anchor2 self gt pre_score' pre_box).1
       = (loss softmax_xent pos_neg_anchor2 self gt pre_score pre_box).1.
Proof.
  intros Hgt HB Hm Hs Hwf Hlab Hsome Hlen Hreg.
  assert (HL : length (data (label m)) = (B * N)%nat).
  { wf_length Hwf Hs. lia. }
  assert (Hval : valid_anchors B N (data (label m)) <> [])
    by (apply some_valid_anchor; assumption).
  assert (Hret : forall ps : tensor Q, length (data ps) = (B * N * 2)%nat ->
            (loss softmax_xent pos_neg_anchor2 self gt ps pre_box).1
            = Ok (TF.Finite (spec_cls_loss softmax_xent B N (data (label m))
                                           (data ps)),
                  reg, label m, target_box m)).
  { intros ps Hps.
    rewrite (loss_unfold _ _ _ _ _ _ B rest m st Hgt Hm). cbn [fst].
    unfold loss_of_match.
    rewrite (cls_loss_graph_spec softmax_xent B N) by assumption.
    rewrite rbind_Ok, Hreg. reflexivity. }
  split; [apply Hret, Hlen|].
  intros ps Hps Hagree. rewrite (Hret ps Hps), (Hret pre_score Hlen).
  rewrite (spec_cls_loss_ignores _ _ _ _ _ _ Hagree). reflexivity.
Qed.

Lemma loss_cls_loss_matches_spec_witness :
  (loss Ex.xent Ex.matcher Ex.self Ex.gt Ex.pre_score Ex.pre_box).1
  = Ok (TF.Finite (spec_cls_loss Ex.xent 1 3 (data (label Ex.matched))
                                 (data Ex.pre_score)),
        8933531975680 # 549755813888, label Ex.matched, target_box Ex.matched)
  /\ forall pre_score' : tensor Q,
       length (data pre_score') = (1 * 3 * 2)%nat ->
       (forall b i j, (b, i) ∈ valid_anchors 1 3 (data (label Ex.matched)) ->
          entry 0 3 2 (data pre_score') b i j
          = entry 0 3 2 (data Ex.pre_score) b i j) ->
       (loss Ex.xent Ex.matcher Ex.self Ex.gt pre_score' Ex.pre_box).1
       = (loss Ex.xent Ex.matcher Ex.self Ex.gt Ex.pre_score Ex.pre_box).1.
Proof.
  apply (loss_cls_loss_matches_spec Ex.xent Ex.matcher Ex.self Ex.gt
           Ex.pre_score Ex.pre_box 1 3 [4%nat] Ex.matched
           (Matcher.Rng (Matcher.tape Ex.rng0) 1));
    try solve [reflexivity | discriminate].
  - intros y Hy. vm_compute in Hy.
    repeat (apply elem_of_cons in Hy as [->|Hy]; [tauto|]).
    apply not_elem_of_nil in Hy. contradiction.
  - exists 1%Z. split; [|discriminate]. vm_compute. apply list_elem_of_here.
Defined.


(** C3.  The smoothed-L1 transform is continuously differentiable at the
    switch point.  Where |d| = 1 the quadratic branch 0.5 d^2 and the
    linear branch |d| - 0.5 both evaluate to 0.5.  Both branches depend on
    d through |d| only, and at |d| = 1 both have slope 1 in |d|: slope 1
    at d = 1 and, by symmetry, slope -1 at d = -1.  The transform that
    line 33 assembles from them has slope 1 at d = 1. *)
Theorem smoothed_l1_continuous_at_switch :
  (forall d, Qabs d == 1 -> option1 d == 1 # 2 /\ option2 d == 1 # 2)
  /\ (forall d, option1 (Qabs d) == option1 d /\ option2 (Qabs d) == option2 d)
  /\ (slope_at option1 1 1 /\ slope_at option2 1 1)
  /\ (slope_at option1 (-1) (-1) /\ slope_at option2 (-1) (-1))
  /\ slope_at smooth_l1_elem 1 1.
Proof.
  repeat split.
  - unfold option1. revert H. apply Qabs_case; intros Hd H.
    + rewrite H. reflexivity.
    + assert (E : d == -1) by lra. rewrite E. reflexivity.
  - unfold option2. rewrite H. reflexivity.
  - unfold option1. apply Qabs_case; intros Hd; ring.
  - unfold option2. rewrite (Qabs_pos (Qabs d)) by apply Qabs_nonneg. reflexivity.
  - apply slope_option1.
  - apply slope_option2_pos. reflexivity.
  - apply slope_option1.
  - apply slope_option2_neg. reflexivity.
  - apply slope_smooth_l1_elem_at_1.
Qed.

(** C4.  At an anchor whose predicted box equals its regression target,
    the four entries that the regression loss sums are exactly 0, whatever
    the inside and outside weights. *)
Theorem zero_residual_contributes_zero (B N : nat)
    (pre_box target_box target_inside_weight target_outside_weight : tensor Q) :
  B <> 0%nat -> length (data pre_box) = (B * N * 4)%nat ->
  shape target_box = [B; N; 4%nat] -> wf target_box ->
  shape target_inside_weight = [B; N; 4%nat] -> wf target_inside_weight ->
  shape target_outside_weight = [B; N; 4%nat] -> wf target_outside_weight ->
  exists smooth_l1 : tensor Q,
    smooth_l1_graph B pre_box target_box target_inside_weight
                    target_outside_weight = Ok smooth_l1
    /\ reg_loss_graph B pre_box target_box target_inside_weight
                      target_outside_weight
       = Ok (TF.reduce_sum smooth_l1 * 10)
    /\ forall b i, (b < B)%nat -> (i < N)%nat ->
         (forall j, (j < 4)%nat ->
            entry 0 N 4 (data pre_box) b i j
            == entry 0 N 4 (data target_box) b i j) ->
         forall j, (j < 4)%nat -> entry 0 N 4 (data smooth_l1) b i j == 0.
Proof.
  intros HB Hlen Ht Wt Hw Ww Ho Wo.
  wf_length Wt Ht. wf_length Ww Hw. wf_length Wo Ho.
  eexists. split; [apply (smooth_l1_graph_data B N); assumption|].
  split.
  - unfold reg_loss_graph.
    rewrite (smooth_l1_graph_data B N) by assumption. reflexivity.
  - intros b i Hb Hi Heq j Hj. cbn [data].
    rewrite (entry_loss_entries B N) by lia.
    apply loss_entry_zero_inside. rewrite (Heq j Hj). ring.
Qed.

Lemma zero_residual_contributes_zero_witness :
  exists smooth_l1 : tensor Q,
    smooth_l1_graph 1 Ex.pre_box_exact (target_box Ex.matched)
      (target_inside_weight Ex.matched) (target_outside_weight Ex.matched)
    = Ok smooth_l1
    /\ reg_loss_graph 1 Ex.pre_box_exact (target_box Ex.matched)
         (target_inside_weight Ex.matched) (target_outside_weight Ex.matched)
       = Ok (TF.reduce_sum smooth_l1 * 10)
    /\ forall b i, (b < 1)%nat -> (i < 3)%nat ->
         (forall j, (j < 4)%nat ->
            entry 0 3 4 (data Ex.pre_box_exact) b i j
            == entry 0 3 4 (data (target_box Ex.matched)) b i j) ->
         forall j, (j < 4)%nat -> entry 0 3 4 (data smooth_l1) b i j == 0.
Proof.
  apply (zero_residual_contributes_zero 1 3 Ex.pre_box_exact (target_box Ex.matched)
           (target_inside_weight Ex.matched) (target_outside_weight Ex.matched));
    solve [reflexivity | discriminate].
Defined.




(** C6.  The regression loss is homogeneous of degree 1 in the outside
    weight, and it is unchanged when every contribution is duplicated (the
    batch followed by a copy of itself, which doubles the foreground count)
    while the outside weight is halved. *)
Theorem reg_loss_outside_weight_normalisation (B N : nat) (c : Q)
    (pre_box target_box target_inside_weight target_outside_weight : tensor Q) :
  B <> 0%nat -> length (data pre_box) = (B * N * 4)%nat ->
  shape target_box = [B; N; 4%nat] -> wf target_box ->
  shape target_inside_weight = [B; N; 4%nat] -> wf target_inside_weight ->
  shape target_outside_weight = [B; N; 4%nat] -> wf target_outside_weight ->
  exists reg scaled doubled : Q,
    reg_loss_graph B pre_box target_box target_inside_weight
                   target_outside_weight = Ok reg
    /\ reg_loss_graph B pre_box target_box target_inside_weight
                      (TF.multiply_scalar target_outside_weight c) = Ok scaled
    /\ scaled == c * reg
    /\ reg_loss_graph (2 * B) (duplicate pre_box) (duplicate target_box)
                      (duplicate target_inside_weight)
                      (TF.multiply_scalar (duplicate target_outside_weight) (1 # 2))
       = Ok doubled
    /\ doubled == reg.
Proof.
  intros HB Hlen Ht Wt Hw Ww Ho Wo.
  wf_length Wt Ht. wf_length Ww Hw. wf_length Wo Ho.
  unfold reg_loss_graph.
  rewrite (smooth_l1_graph_data B N) by assumption.
  rewrite (smooth_l1_graph_data B N) by assumption.
  rewrite (smooth_l1_graph_data (2 * B) N); cycle 1.
  { lia. }
  { cbn [duplicate data]. rewrite length_app. lia. }
  { cbn [duplicate shape]. rewrite Ht. reflexivity. }
  { cbn [duplicate shape]. rewrite Hw. reflexivity. }
  { cbn [duplicate shape TF.multiply_scalar TF.unop]. rewrite Ho. reflexivity. }
  rewrite !rbind_Ok.
  eexists _, _, _. split; [reflexivity|]. split; [reflexivity|].
  unfold TF.reduce_sum. cbn [data TF.multiply_scalar TF.unop duplicate].
  split; [|split; [reflexivity|]].
  - rewrite (Qsum_Forall2 _ _ (loss_entries_scale c _ _ _ _)), Qsum_scale. ring.
  - rewrite fmap_app, loss_entries_app by (rewrite ?length_fmap; lia).
    rewrite Qsum_app.
    rewrite (Qsum_Forall2 _ _ (loss_entries_scale (1 # 2) _ _ _ _)), Qsum_scale.
    ring.
Qed.

Lemma reg_loss_outside_weight_normalisation_witness :
  exists reg scaled doubled : Q,
    reg_loss_graph 1 Ex.pre_box (target_box Ex.matched)
      (target_inside_weight Ex.matched) (target_outside_weight Ex.matched)
    = Ok reg
    /\ reg_loss_graph 1 Ex.pre_box (target_box Ex.matched)
         (target_inside_weight Ex.matched)
         (TF.multiply_scalar (target_outside_weight Ex.matched) (3 # 1))
       = Ok scaled
    /\ scaled == (3 # 1) * reg
    /\ reg_loss_graph (2 * 1) (duplicate Ex.pre_box)
         (duplicate (target_box Ex.matched))
         (duplicate (target_inside_weight Ex.matched))
         (TF.multiply_scalar (duplicate (target_outside_weight Ex.matched))
                             (1 # 2))
       = Ok doubled
    /\ doubled == reg.
Proof.
  apply (reg_loss_outside_weight_normalisation 1 3 (3 # 1) Ex.pre_box
           (target_box Ex.matched) (target_inside_weight Ex.matched)
           (target_outside_weight Ex.matched));
    solve [reflexivity | discriminate].
Defined.





(** C8.  The anchors are built once, by [__init__], and every call of
    [loss] hands exactly those anchors to the matcher and leaves the field
    as it found it: after any sequence of invocations the stored anchors
    are the ones [__init__] set. *)
Theorem anchors_cached_across_batches {matcher_state : Type}
    (softmax_xent : list Q -> Z -> Q) (Anchor : nat -> nat -> tensor Q)
    (Anchor_tf : matcher_state)
    (pos_neg_anchor2 : matcher_state -> tensor Q -> tensor Q ->
                       result matcher_out * matcher_state)
    (batches : list (tensor Q * tensor Q * tensor Q))
    (gt pre_score pre_box : tensor Q) :
  let self0 := init Anchor Anchor_tf in
  let self := (run softmax_xent pos_neg_anchor2 self0 batches).2 in
  anchors self0 = Anchor 49%nat 49%nat
  /\ anchors self = Anchor 49%nat 49%nat
  /\ anchors (loss softmax_xent pos_neg_anchor2 self gt pre_score pre_box).2
     = Anchor 49%nat 49%nat
  /\ (loss softmax_xent pos_neg_anchor2 self gt pre_score pre_box).1
     = match shape gt with
       | [] => Raise BadRank
       | batch_size :: _ =>
           do m <- (pos_neg_anchor2 (anchor_tf self) gt (Anchor 49%nat 49%nat)).1;
           loss_of_match softmax_xent batch_size m pre_score pre_box
       end.
Proof.
  intros self0 self.
  assert (Ha : anchors self = Anchor 49%nat 49%nat) by apply run_anchors.
  split; [reflexivity|]. split; [exact Ha|]. split.
  - rewrite loss_anchors. exact Ha.
  - unfold loss. rewrite Ha. destruct (shape gt) as [|B rest]; [reflexivity|].
    destruct (pos_neg_anchor2 (anchor_tf self) gt (Anchor 49%nat 49%nat)). reflexivity.
Qed.


(** C9, as amended.  The labelling of steps 2 to 4 marks as foreground
    every anchor whose IoU with the ground truth is the maximum over all
    anchors, whatever the thresholds, and all of them when several tie.
    The labels the matcher returns keep every such anchor foreground when
    the foreground candidates fit under the cap; and whenever there is an
    anchor, the cap is at least one and the draw ranks every anchor, at
    least one anchor is returned foreground. *)
Theorem max_iou_anchor_is_foreground (cfg : Matcher.config) (draw : list nat)
    (ancs : list Matcher.box) (g : Matcher.box) :
  let ious := (fun a => Matcher.iou a g) <$> ancs in
  (forall i x, ious !! i = Some x -> Matcher.is_maximum ious x = true ->
     Matcher.candidates cfg ious !! i = Some 1%Z
     /\ ((length (Matcher.pool 1 (Matcher.candidates cfg ious))
          <= Matcher.fg_cap cfg)%nat ->
         Matcher.assign_labels cfg draw ancs g !! i = Some 1%Z))
  /\ (ancs <> [] -> (1 <= Matcher.fg_cap cfg)%nat ->
      (forall i, (i < length ancs)%nat -> i ∈ draw) ->
      exists i, Matcher.assign_labels cfg draw ancs g !! i = Some 1%Z).
Proof.
  intros ious. split.
  - intros i x Hx Hmax.
    pose proof (candidates_maximum cfg ious i x Hx Hmax) as Hc.
    split; [exact Hc|].
    intros Hcap. unfold Matcher.assign_labels. fold ious.
    apply sample_foreground.
    + eapply lookup_lt_Some, Hc.
    + rewrite subsample_within_cap by exact Hcap. apply pool_spec, Hc.
  - apply assign_labels_some_foreground.
Qed.

Lemma max_iou_anchor_is_foreground_witness :
  Matcher.candidates Ex.cfg ((fun a => Matcher.iou a Ex.box_big) <$> Ex.close_boxes)
    !! 0%nat = Some 1%Z
  /\ exists i, Matcher.assign_labels Ex.cfg [1; 0]%nat Ex.close_boxes Ex.box_big
               !! i = Some 1%Z.
Proof.
  pose proof (max_iou_anchor_is_foreground Ex.cfg [1; 0]%nat Ex.close_boxes
                Ex.box_big) as [Hmax Hsome].
  split.
  - apply (Hmax 0%nat (Matcher.iou (Matcher.Box 0 0 10 10) Ex.box_big));
      reflexivity.
  - apply Hsome.
    + discriminate.
    + cbn. lia.
    + intros i Hi. cbn in Hi.
      destruct i as [|[|i]]; [| |lia].
      * apply list_elem_of_further, list_elem_of_here.
      * apply list_elem_of_here.
Defined.

(** C9, as stated, fails once the foreground candidates exceed the cap:
    here both anchors are candidates (IoU 1 and 0.9, threshold 0.7), the
    cap is one and the draw ranks the second anchor first, so the anchor
    with the maximum IoU is returned as ignore. *)
Lemma max_iou_anchor_dropped_by_sampling :
  exists i x,
    ((fun a => Matcher.iou a Ex.box_big) <$> Ex.close_boxes) !! i = Some x
    /\ Matcher.is_maximum ((fun a => Matcher.iou a Ex.box_big) <$> Ex.close_boxes) x
       = true
    /\ Matcher.assign_labels Ex.cfg [1; 0]%nat Ex.close_boxes Ex.box_big !! i
       = Some (-1)%Z.
Proof. exists 0%nat, (Matcher.iou (Matcher.Box 0 0 10 10) Ex.box_big). repeat split. Qed.




(** * Further properties of [net/network.py] *)

(** ** [Network.feed] *)

Lemma feed_loop_resolved {node} (args : list (Net.fed node))
    (vs : list (Net.layer_val node)) (self : Net.Network node) :
  Forall2 (fun a v => resolve self a = Some v) args vs ->
  Net.feed_loop node self args
  = (inr tt, Net.set_terminals self (Net.terminals self ++ vs)).
Proof.
  intros H. revert self H. revert vs.
  induction args as [|a args IH]; intros vs self H.
  - apply Forall2_nil_inv_l in H as ->. rewrite app_nil_r.
    destruct self. reflexivity.
  - apply Forall2_cons_inv_l in H as (v & vs' & Hv & Hvs & ->).
    cbn [Net.feed_loop].
    assert (E : match a with
                | Net.ByLayer v0 => inr v0
                | Net.ByName n =>
                    match Net.layers self !! n with
                    | Some v0 => inr v0
                    | None => inl (Net.KeyError ("Unknown layer name fed: " +:+ n))
                    end
                end = (inr v : Net.exn + Net.layer_val node)).
    { destruct a as [n|v0]; cbn in Hv; [rewrite Hv|injection Hv as ->]; reflexivity. }
    rewrite E.
    rewrite (IH vs' (Net.set_terminals self (Net.terminals self ++ [v]))).
    + cbn. rewrite <- app_assoc. reflexivity.
    + eapply Forall2_impl; [exact Hvs|]. intros a' v' Ha'.
      destruct a'; exact Ha'.
Qed.

Lemma feed_loop_unknown {node} (pre post : list (Net.fed node)) (n : string)
    (vs : list (Net.layer_val node)) (self : Net.Network node) :
  Forall2 (fun a v => resolve self a = Some v) pre vs ->
  Net.layers self !! n = None ->
  Net.feed_loop node self (pre ++ Net.ByName n :: post)
  = (inl (Net.KeyError ("Unknown layer name fed: " +:+ n)),
     Net.set_terminals self (Net.terminals self ++ vs)).
Proof.
  intros H. revert self H. revert vs.
  induction pre as [|a pre IH]; intros vs self H Hn.
  - apply Forall2_nil_inv_l in H as ->. rewrite app_nil_r.
    cbn [app Net.feed_loop]. rewrite Hn. destruct self. reflexivity.
  - apply Forall2_cons_inv_l in H as (v & vs' & Hv & Hvs & ->).
    cbn [app Net.feed_loop].
    assert (E : match a with
                | Net.ByLayer v0 => inr v0
                | Net.ByName n0 =>
                    match Net.layers self !! n0 with
                    | Some v0 => inr v0
                    | None => inl (Net.KeyError ("Unknown layer name fed: " +:+ n0))
                    end
                end = (inr v : Net.exn + Net.layer_val node)).
    { destruct a as [n0|v0]; cbn in Hv; [rewrite Hv|injection Hv as ->]; reflexivity. }
    rewrite E.
    rewrite (IH vs' (Net.set_terminals self (Net.terminals self ++ [v]))).
    + cbn. rewrite <- app_assoc. reflexivity.
    + eapply Forall2_impl; [exact Hvs|]. intros a' v' Ha'.
      destruct a'; exact Ha'.
    + exact Hn.
Qed.

(** X1.  When every argument of [feed] is a layer or the name of a stored
    layer, [feed] returns and the terminals are exactly the layers of its
    arguments, in order, whatever the terminals were. *)
Theorem feed_replaces_terminals {node} (self : Net.Network node)
    (args : list (Net.fed node)) (vs : list (Net.layer_val node)) :
  args <> [] ->
  Forall2 (fun a v => resolve self a = Some v) args vs ->
  Net.feed self args = (inr tt, Net.set_terminals self vs).
Proof.
  intros Hne H. unfold Net.feed. destruct args as [|a args]; [contradiction|].
  rewrite (feed_loop_resolved _ vs).
  - reflexivity.
  - exact H.
Qed.

Lemma feed_replaces_terminals_witness :
  Net.feed Ex.net0 [Net.ByName "data"]
  = (inr tt, Net.set_terminals Ex.net0 [Net.Node 0%nat]).
Proof.
  apply (feed_replaces_terminals Ex.net0 [Net.ByName "data"] [Net.Node 0%nat]).
  - discriminate.
  - repeat constructor.
Defined.

(** X2.  When an argument of [feed] names no stored layer, [feed] raises
    KeyError with that name, and by then the old terminals are gone: the
    terminals are the layers of the arguments before the unknown name. *)
Theorem feed_unknown_name {node} (self : Net.Network node)
    (pre post : list (Net.fed node)) (n : string)
    (vs : list (Net.layer_val node)) :
  Forall2 (fun a v => resolve self a = Some v) pre vs ->
  Net.layers self !! n = None ->
  Net.feed self (pre ++ Net.ByName n :: post)
  = (inl (Net.KeyError ("Unknown layer name fed: " +:+ n)),
     Net.set_terminals self vs).
Proof.
  intros H Hn. unfold Net.feed.
  destruct (pre ++ Net.ByName n :: post) as [|a l] eqn:E.
  - destruct pre; discriminate.
  - rewrite <- E. rewrite (feed_loop_unknown pre post n vs); [reflexivity| |exact Hn].
    exact H.
Qed.

Lemma feed_unknown_name_witness :
  Net.feed Ex.net0 [Net.ByName "data"; Net.ByName "conv9"; Net.ByName "data"]
  = (inl (Net.KeyError "Unknown layer name fed: conv9"),
     Net.set_terminals Ex.net0 [Net.Node 0%nat]).
Proof.
  apply (feed_unknown_name Ex.net0 [Net.ByName "data"] [Net.ByName "data"]
           "conv9" [Net.Node 0%nat]).
  - repeat constructor.
  - reflexivity.
Defined.

Lemma feed_loop_frame {node} (args : list (Net.fed node)) (self : Net.Network node) :
  let self' := (Net.feed_loop node self args).2 in
  Net.layers self' = Net.layers self /\ Net.inputs self' = Net.inputs self
  /\ Net.k self' = Net.k self /\ Net.trainable self' = Net.trainable self.
Proof.
  revert self. induction args as [|a args IH]; intros self; cbn zeta.
  - auto.
  - cbn [Net.feed_loop].
    destruct a as [n|v]; [destruct (Net.layers self !! n)|]; cbn [snd]; auto;
      apply (IH (Net.set_terminals self _)).
Qed.

(** X3.  [feed] writes the terminals and nothing else: the layer table,
    the inputs, [k] and [trainable] are the same after every call, whether
    it returns or raises; with no argument it raises AssertionError and
    leaves the terminals too. *)
Theorem feed_frame {node} (self : Net.Network node) (args : list (Net.fed node)) :
  let self' := (Net.feed self args).2 in
  (Net.layers self' = Net.layers self /\ Net.inputs self' = Net.inputs self
   /\ Net.k self' = Net.k self /\ Net.trainable self' = Net.trainable self)
  /\ Net.feed self [] = (inl Net.AssertionError, self).
Proof.
  cbn zeta. split; [|reflexivity].
  unfold Net.feed. destruct args as [|a args]; [auto|].
  apply (feed_loop_frame (a :: args) (Net.set_terminals self [])).
Qed.

(** ** Decorated calls in sequence *)

Lemma layer_decorated_returns {node} (op : Net.layer_op node)
    (self self' : Net.Network node) (name : option string) :
  Net.layer_decorated op self name = (inr tt, self') ->
  exists input output,
    Net.layer_input self = Some input
    /\ Net.op_run op self input (Net.layer_name op self name) = inr output
    /\ self' = Net.set_terminals
                 (Net.set_layer self (Net.layer_name op self name) output)
                 [output].
Proof.
  unfold Net.layer_decorated.
  destruct (Net.layer_input self) as [input|]; [|discriminate].
  destruct (Net.op_run op self input _) as [e|output] eqn:E; [discriminate|].
  rewrite feed_one_layer. intros [= <-]. eauto.
Qed.

(** X4.  A decorated call returns normally only when there was a terminal
    and the layer function returned; [get_output] then gives that layer's
    output, which is also what the layer table holds under the layer's
    name. *)
Theorem get_output_after_layer {node} (op : Net.layer_op node)
    (self self' : Net.Network node) (name : option string) :
  Net.layer_decorated op self name = (inr tt, self') ->
  exists input output,
    Net.layer_input self = Some input
    /\ Net.op_run op self input (Net.layer_name op self name) = inr output
    /\ NetOps.get_output self' = inr output
    /\ Net.layers self' !! Net.layer_name op self name = Some output.
Proof.
  intros (input & output & Hin & Hrun & ->)%layer_decorated_returns.
  exists input, output. repeat split; try assumption.
  cbn. apply lookup_insert_eq.
Qed.

Lemma get_output_after_layer_witness :
  exists input output,
    Net.layer_input Ex.net0 = Some input
    /\ Net.op_run Ex.relu Ex.net0 input "relu_1" = inr output
    /\ NetOps.get_output ExNet.relu_1 = inr output
    /\ Net.layers ExNet.relu_1 !! "relu_1" = Some output.
Proof.
  apply (get_output_after_layer Ex.relu Ex.net0 ExNet.relu_1 None).
  reflexivity.
Defined.

(** X5.  Two decorated calls in a row chain: the second layer function
    receives the output of the first as its input, [get_output] ends as
    the second output, and the first output stays in the layer table
    under its name unless the second layer takes the same name. *)
Theorem layer_calls_chain {node} (op1 op2 : Net.layer_op node)
    (self self1 self2 : Net.Network node) (name1 name2 : option string) :
  Net.layer_decorated op1 self name1 = (inr tt, self1) ->
  Net.layer_decorated op2 self1 name2 = (inr tt, self2) ->
  exists out1 out2,
    Net.layers self1 !! Net.layer_name op1 self name1 = Some out1
    /\ Net.op_run op2 self1 out1 (Net.layer_name op2 self1 name2) = inr out2
    /\ NetOps.get_output self2 = inr out2
    /\ Net.layers self2 !! Net.layer_name op2 self1 name2 = Some out2
    /\ (Net.layer_name op2 self1 name2 <> Net.layer_name op1 self name1 ->
        Net.layers self2 !! Net.layer_name op1 self name1 = Some out1).
Proof.
  intros (in1 & out1 & Hin1 & Hrun1 & ->)%layer_decorated_returns.
  intros (in2 & out2 & Hin2 & Hrun2 & ->)%layer_decorated_returns.
  cbn in Hin2. injection Hin2 as <-.
  exists out1, out2. repeat split.
  - cbn. apply lookup_insert_eq.
  - exact Hrun2.
  - cbn. apply lookup_insert_eq.
  - intros Hne. cbn. rewrite lookup_insert_ne by exact Hne.
    apply lookup_insert_eq.
Qed.

Lemma layer_calls_chain_witness :
  exists out1 out2,
    Net.layers ExNet.relu_1 !! "relu_1" = Some out1
    /\ Net.op_run Ex.relu ExNet.relu_1 out1 "relu_2" = inr out2
    /\ NetOps.get_output ExNet.relu_2 = inr out2
    /\ Net.layers ExNet.relu_2 !! "relu_2" = Some out2
    /\ ("relu_2" <> "relu_1" ->
        Net.layers ExNet.relu_2 !! "relu_1" = Some out1).
Proof.
  apply (layer_calls_chain Ex.relu Ex.relu Ex.net0 ExNet.relu_1 ExNet.relu_2
           None None); reflexivity.
Defined.

Lemma feed_loop_last {node} (args : list (Net.fed node)) (a : Net.fed node)
    (s s' : Net.Network node) :
  Net.feed_loop node s (args ++ [a]) = (inr tt, s') ->
  exists v, resolve s a = Some v /\ NetOps.get_output s' = inr v.
Proof.
  revert s. induction args as [|b args IH]; intros s.
  - cbn [app Net.feed_loop].
    destruct a as [n|v]; cbn [resolve].
    + destruct (Net.layers s !! n) as [v|]; [|discriminate].
      intros [= <-]. exists v. split; [reflexivity|].
      unfold NetOps.get_output. cbn. rewrite last_snoc. reflexivity.
    + intros [= <-]. exists v. split; [reflexivity|].
      unfold NetOps.get_output. cbn. rewrite last_snoc. reflexivity.
  - cbn [app Net.feed_loop].
    destruct b as [n|v]; [destruct (Net.layers s !! n) as [v|]; [|discriminate]|];
      intros H; apply IH in H as (w & Hw & Hout); exists w; (split; [|exact Hout]);
      destruct a; exact Hw.
Qed.

(** X6.  After a [feed] that returns, [get_output] is the layer of the
    last argument. *)
Theorem get_output_after_feed {node} (self self' : Net.Network node)
    (args : list (Net.fed node)) (a : Net.fed node) :
  Net.feed self (args ++ [a]) = (inr tt, self') ->
  exists v, resolve self a = Some v /\ NetOps.get_output self' = inr v.
Proof.
  unfold Net.feed. destruct (args ++ [a]) as [|x l] eqn:E.
  { destruct args; discriminate. }
  rewrite <- E. intros H. apply feed_loop_last in H as (v & Hv & Hout).
  exists v. split; [|exact Hout]. destruct a; exact Hv.
Qed.

Lemma get_output_after_feed_witness :
  exists v, resolve ExNet.relu_1 (Net.ByName "data") = Some v
            /\ NetOps.get_output (Net.set_terminals ExNet.relu_1
                                    [Net.Node 0%nat; Net.Node 0%nat])
               = inr v.
Proof.
  apply (get_output_after_feed ExNet.relu_1 _ [Net.ByName "relu_1"]
           (Net.ByName "data")).
  reflexivity.
Defined.

(** ** [Network.get_unique_name] *)

Lemma prefix_append (p s : string) : String.prefix p (p +:+ s) = true.
Proof.
  induction p as [|c p IH].
  - destruct s; reflexivity.
  - change (String c p +:+ s) with (String c (p +:+ s)). simpl.
    destruct (Ascii.ascii_dec c c) as [_|Hne]; [exact IH|contradiction].
Qed.

Lemma indexed_name_inj (p : string) (i j : nat) :
  NetOps.indexed_name p i = NetOps.indexed_name p j -> i = j.
Proof.
  unfold NetOps.indexed_name. intros H.
  apply String.app_inj, String.app_inj in H.
  apply (inj pretty) in H. exact H.
Qed.

Lemma get_unique_name_indexed {node} (self : Net.Network node) (p : string) :
  Net.get_unique_name self p
  = NetOps.indexed_name p (NetOps.prefix_count self p + 1).
Proof. reflexivity. Qed.

Lemma prefix_count_insert {node} (self : Net.Network node) (p name : string)
    (v : Net.layer_val node) :
  Net.layers self !! name = None -> String.prefix p name = true ->
  NetOps.prefix_count (Net.set_layer self name v) p
  = S (NetOps.prefix_count self p).
Proof.
  intros Hfresh Hp. unfold NetOps.prefix_count. cbn [Net.set_layer Net.layers].
  rewrite (Permutation_length
             (filter_Permutation _ _ _ (map_to_list_insert _ name v Hfresh))).
  rewrite filter_cons_True by exact Hp. reflexivity.
Qed.

(** X7.  Auto-generated names do not collide as long as nobody names a
    layer ahead of the count.  A network with no layer name starting with
    the function's name is in order; and when it is in order, a decorated
    call without a name picks a name that no layer has, so it overwrites
    nothing, every earlier layer stays under its name, and the network is
    in order again for the next call. *)
Theorem auto_names_do_not_collide {node} (op : Net.layer_op node)
    (self : Net.Network node) :
  ((forall k, is_Some (Net.layers self !! k) ->
      String.prefix (Net.op_name op) k = false) ->
   numbered self (Net.op_name op))
  /\ (numbered self (Net.op_name op) ->
      Net.layers self !! Net.layer_name op self None = None
      /\ forall self', Net.layer_decorated op self None = (inr tt, self') ->
           (forall k v, Net.layers self !! k = Some v ->
                        Net.layers self' !! k = Some v)
           /\ numbered self' (Net.op_name op)).
Proof.
  split.
  - intros Hno j [v Hj]. exfalso.
    specialize (Hno _ (mk_is_Some _ _ Hj)).
    unfold NetOps.indexed_name in Hno. rewrite prefix_append in Hno.
    discriminate.
  - intros Hnum.
    assert (Hfresh : Net.layers self !! Net.layer_name op self None = None).
    { unfold Net.layer_name. cbn [default]. rewrite get_unique_name_indexed.
      destruct (Net.layers self !! _) as [v|] eqn:E; [|reflexivity].
      specialize (Hnum _ (mk_is_Some _ _ E)). lia. }
    split; [exact Hfresh|].
    intros self' (input & output & _ & _ & ->)%layer_decorated_returns.
    split.
    + intros k v Hk. cbn. rewrite lookup_insert_ne; [exact Hk|].
      intros Heq. subst k.
      change (Net.layers self !! Net.layer_name op self None = Some v) in Hk.
      congruence.
    + intros j [v Hj]. unfold NetOps.prefix_count. cbn [Net.set_terminals Net.layers].
      fold (NetOps.prefix_count
              (Net.set_layer self (Net.layer_name op self None) output)
              (Net.op_name op)).
      rewrite prefix_count_insert.
      * cbn in Hj. apply lookup_insert_Some in Hj as [[Heq _]|[_ Hj]].
        -- unfold Net.layer_name in Heq. cbn [default] in Heq.
           rewrite get_unique_name_indexed in Heq.
           apply indexed_name_inj in Heq. lia.
        -- specialize (Hnum _ (mk_is_Some _ _ Hj)). lia.
      * exact Hfresh.
      * unfold Net.layer_name. cbn [default]. rewrite get_unique_name_indexed.
        apply prefix_append.
Qed.

(** ** [Network.__init__] *)

(** X8.  A network starts with no terminal and with its inputs as its
    layers.  So a [setup] that calls a layer before any [feed] makes the
    constructor raise RuntimeError, while a [setup] that first feeds the
    name of an input runs its first layer function on that input and,
    when it returns, leaves the inputs and the new layer in the layer
    table. *)
Theorem init_first_layer {node} (op : Net.layer_op node)
    (inputs : gmap string (Net.layer_val node)) (trainable : bool)
    (n : string) (name : option string) :
  let fresh := Net.MkNetwork 5 inputs [] inputs trainable in
  NetOps.init (fun self => Net.layer_decorated op self name) inputs trainable
  = (inl (Net.RuntimeError ("No input variables found for layer "
                            +:+ Net.layer_name op fresh name +:+ ".")),
     fresh)
  /\ forall v, inputs !! n = Some v ->
       NetOps.init
         (fun self => match Net.feed self [Net.ByName n] with
                      | (inr _, fed) => Net.layer_decorated op fed name
                      | raised => raised
                      end) inputs trainable
       = match Net.op_run op (Net.set_terminals fresh [v]) v
                 (Net.layer_name op fresh name) with
         | inl e => (inl e, Net.set_terminals fresh [v])
         | inr out =>
             (inr tt,
              Net.MkNetwork 5 inputs [out]
                (<[Net.layer_name op fresh name := out]> inputs) trainable)
         end.
Proof.
  intros fresh. split; [reflexivity|].
  intros v Hv. unfold NetOps.init. fold fresh.
  unfold Net.feed.
  rewrite (feed_loop_resolved [Net.ByName n] [v] (Net.set_terminals fresh []));
    [|repeat constructor; exact Hv].
  change (Net.set_terminals (Net.set_terminals fresh [])
            (Net.terminals (Net.set_terminals fresh []) ++ [v]))
    with (Net.set_terminals fresh [v]).
  unfold Net.layer_decorated.
  change (Net.layer_input (Net.set_terminals fresh [v])) with (Some v).
  change (Net.layer_name op (Net.set_terminals fresh [v]) name)
    with (Net.layer_name op fresh name).
  cbv beta iota zeta.
  destruct (Net.op_run op (Net.set_terminals fresh [v]) v
              (Net.layer_name op fresh name)); reflexivity.
Qed.

(** ** [Network.reshape] *)

(** X9.  [reshape] accepts the rates 2 and 4 only: any other rate raises
    KeyError whatever the input is.  For rate 2 (last dimension 10) and
    rate 4 (last dimension 20), an input of shape (b, h, w, c) is turned
    into shape (h, w, 256, last) with the same elements exactly when it
    has h * w * 256 * last of them, and raises ValueError otherwise. *)
Theorem reshape_rates {A} (input : tensor A) (rate : Z) :
  (rate <> 2%Z -> rate <> 4%Z ->
   NetOps.reshape input rate = inl (Net.KeyError "shape is error"))
  /\ forall b h w c last,
       (rate = 2%Z /\ last = 10%nat) \/ (rate = 4%Z /\ last = 20%nat) ->
       shape input = [b; h; w; c] ->
       NetOps.reshape input rate
       = if decide (length (data input) = h * (w * (256 * (last * 1))))%nat
         then inr (Tensor [h; w; 256%nat; last] (data input))
         else inl NetOps.ValueError.
Proof.
  split.
  - intros H2 H4. unfold NetOps.reshape.
    rewrite (proj2 (Z.eqb_neq rate 2) H2), (proj2 (Z.eqb_neq rate 4) H4).
    reflexivity.
  - intros b h w c last Hrate Hs. unfold NetOps.reshape. rewrite Hs.
    assert (Hh : Z.of_nat h <> (-1)%Z) by lia.
    assert (Hw : Z.of_nat w <> (-1)%Z) by lia.
    assert (R : forall l : Z, (l = 10 \/ l = 20)%Z ->
              TF.reshape input [Z.of_nat h; Z.of_nat w; 256%Z; l]
              = if decide (h * (w * (256 * (Z.to_nat l * 1))) = length (data input))%nat
                then Ok (Tensor [h; w; 256%nat; Z.to_nat l] (data input))
                else Raise BadReshape).
    { intros l Hl. unfold TF.reshape, TF.count_free, TF.known_dims, TF.fill_free.
      rewrite !filter_cons, !filter_nil.
      rewrite (decide_False (P := Z.of_nat h = (-1)%Z)) by exact Hh.
      rewrite (decide_False (P := Z.of_nat w = (-1)%Z)) by exact Hw.
      rewrite (decide_True (P := Z.of_nat h <> (-1)%Z)) by exact Hh.
      rewrite (decide_True (P := Z.of_nat w <> (-1)%Z)) by exact Hw.
      rewrite (decide_False (P := 256%Z = (-1)%Z)) by lia.
      rewrite (decide_True (P := 256%Z <> (-1)%Z)) by lia.
      rewrite (decide_False (P := l = (-1)%Z)) by lia.
      rewrite (decide_True (P := l <> (-1)%Z)) by lia.
      cbn [length fmap list_fmap numel foldr]. rewrite !Nat2Z.id.
      change (Z.to_nat 256) with 256%nat.
      case_decide; [|reflexivity].
      rewrite (decide_False (P := Z.of_nat h = (-1)%Z)) by exact Hh.
      rewrite (decide_False (P := Z.of_nat w = (-1)%Z)) by exact Hw.
      rewrite (decide_False (P := 256%Z = (-1)%Z)) by lia.
      rewrite (decide_False (P := l = (-1)%Z)) by lia.
      rewrite ?Nat2Z.id. reflexivity. }
    destruct Hrate as [[-> ->]|[-> ->]]; cbn [Z.eqb Pos.eqb];
      rewrite R by lia; change (Z.to_nat 10) with 10%nat;
      change (Z.to_nat 20) with 20%nat;
      repeat case_decide; try reflexivity; exfalso; lia.
Qed.

(** ** [Network.dropout] *)

(** X10.  The keep probability of [dropout] is [keep_prob] when the
    dropout switch is 1 and 1 (nothing dropped) when it is 0; for a switch
    and a [keep_prob] between 0 and 1 it lies between [keep_prob] and 1,
    so it is a probability. *)
Theorem dropout_keep_range (use_dropout keep_prob : Q) :
  NetOps.dropout_keep 1 keep_prob == keep_prob
  /\ NetOps.dropout_keep 0 keep_prob == 1
  /\ (0 <= use_dropout <= 1 -> 0 <= keep_prob <= 1 ->
      keep_prob <= NetOps.dropout_keep use_dropout keep_prob <= 1).
Proof.
  unfold NetOps.dropout_keep. split; [ring|]. split; [ring|].
  intros [Hu0 Hu1] [Hp0 Hp1]. split; nra.
Qed.

(** ** [Network.conv_3] *)

(** X11.  [conv_3] has no branch for grouped convolution: called with a
    group other than 1 it never returns a layer.  Whatever the
    TensorFlow calls do, it ends in an exception (UnboundLocalError for
    [output] at the latest). *)
Theorem conv_3_group_unsupported {node : Type}
    (get_channels : node -> Net.exn + nat)
    (make_var : string -> list Q -> Net.exn + node)
    (conv2d : node -> node -> nat * nat -> string -> Net.exn + node)
    (bias_add : node -> node -> Net.exn + node)
    (relu : node -> Net.exn + node)
    (slice : node -> nat -> Net.exn + node)
    (input : Net.layer_val node) (k_h k_w c_o s_h s_w : nat) (name : string)
    (relu_flag : bool) (padding : string) (group : nat) (biased : bool) :
  group <> 1%nat ->
  exists e : Net.exn,
    conv_3 node get_channels make_var conv2d bias_add relu slice input
           k_h k_w c_o s_h s_w name relu_flag padding group biased
    = inl e.
Proof.
  intros Hg. unfold conv_3.
  destruct (NetOps.validate_padding padding) as [e|[]]; [eauto|]. cbn [ebind].
  destruct (getitem node slice input 0) as [e|in0]; [eauto|]. cbn [ebind].
  destruct (get_channels in0) as [e|c_i]; [eauto|]. cbn [ebind].
  destruct (assert_divisible c_i group) as [e|[]]; [eauto|]. cbn [ebind].
  destruct (assert_divisible c_o group) as [e|[]]; [eauto|]. cbn [ebind].
  destruct (make_var (name +:+ "_t") _) as [e|kt]; [eauto|]. cbn [ebind].
  destruct (make_var (name +:+ "_d") _) as [e|kd]; [eauto|]. cbn [ebind].
  rewrite decide_False by exact Hg. cbn [ebind].
  destruct biased.
  - destruct (make_var (name +:+ "_b") _) as [e|b]; cbn [ebind]; eauto.
  - cbn [ebind]. destruct relu_flag; cbn [ebind]; eauto.
Qed.

Lemma conv_3_group_unsupported_witness :
  exists e : Net.exn,
    conv_3 nat ExNet.get_channels ExNet.make_var ExNet.conv2d ExNet.bias_add
           ExNet.relu ExNet.slice ExNet.pair_input 3 3 8 1 1 "conv1" true
           "SAME" 2 true
    = inl e.
Proof.
  apply (conv_3_group_unsupported ExNet.get_channels ExNet.make_var
           ExNet.conv2d ExNet.bias_add ExNet.relu ExNet.slice ExNet.pair_input
           3 3 8 1 1 "conv1" true "SAME" 2 true).
  discriminate.
Defined.

(** ** [Network.load] *)

Section LoadFacts.

Context {value : Type}.
Variable assignable : value -> value -> bool.

Lemma load_params_dom (op_name : string) (params : list (string * value))
    (ignore_missing : bool) (session : gmap string value) :
  dom (load_params value assignable op_name params ignore_missing session).2
  = dom session.
Proof.
  revert session. induction params as [|[p d] rest IH]; intros session.
  - reflexivity.
  - cbn [load_params].
    destruct (session !! variable_name op_name p) as [var|] eqn:E.
    + destruct (assignable var d).
      * rewrite IH. apply dom_insert_lookup_L. eauto.
      * destruct ignore_missing; [apply IH|reflexivity].
    + destruct ignore_missing; [apply IH|reflexivity].
Qed.

Lemma load_params_other (op_name : string) (params : list (string * value))
    (ignore_missing : bool) (session : gmap string value) (name : string) :
  (forall p d, (p, d) ∈ params -> variable_name op_name p <> name) ->
  (load_params value assignable op_name params ignore_missing session).2 !! name
  = session !! name.
Proof.
  revert session. induction params as [|[p d] rest IH]; intros session H.
  - reflexivity.
  - cbn [load_params].
    assert (Hr : forall p' d', (p', d') ∈ rest -> variable_name op_name p' <> name)
      by (intros p' d' Hin; apply (H p' d'), list_elem_of_further, Hin).
    pose proof (H p d (list_elem_of_here _ _)) as Hp.
    destruct (session !! variable_name op_name p) as [var|] eqn:E.
    + destruct (assignable var d).
      * rewrite IH by exact Hr. apply lookup_insert_ne, Hp.
      * destruct ignore_missing; [apply IH, Hr|reflexivity].
    + destruct ignore_missing; [apply IH, Hr|reflexivity].
Qed.

Lemma entries_cons (op : string) (params : list (string * value))
    (rest : list (string * list (string * value))) :
  entries value ((op, params) :: rest)
  = ((fun pd : string * value => (variable_name op pd.1, pd.2)) <$> params)
    ++ entries value rest.
Proof. reflexivity. Qed.

Lemma load_dom_other (data_dict : list (string * list (string * value)))
    (ignore_missing : bool) (session : gmap string value) :
  let session' := (load value assignable data_dict ignore_missing session).2 in
  dom session' = dom session
  /\ forall name, (forall d, (name, d) ∉ entries value data_dict) ->
                  session' !! name = session !! name.
Proof.
  cbn zeta. revert session.
  induction data_dict as [|[op params] rest IH]; intros session.
  - split; reflexivity.
  - cbn [load].
    pose proof (load_params_dom op params ignore_missing session) as Hd.
    pose proof (load_params_other op params ignore_missing session) as Ho.
    destruct (load_params value assignable op params ignore_missing session)
      as [[e|[]] s1]; cbn [snd] in *.
    + split; [exact Hd|]. intros name Hn. apply Ho.
      intros p d Hin Heq. apply (Hn d). rewrite entries_cons.
      apply elem_of_app. left. apply list_elem_of_fmap.
      exists (p, d). split; [cbn; rewrite Heq; reflexivity|exact Hin].
    + destruct (IH s1) as [IHd IHo]. split; [rewrite IHd; exact Hd|].
      intros name Hn. rewrite IHo.
      * apply Ho. intros p d Hin Heq. apply (Hn d). rewrite entries_cons.
        apply elem_of_app. left. apply list_elem_of_fmap.
        exists (p, d). split; [cbn; rewrite Heq; reflexivity|exact Hin].
      * intros d Hin. apply (Hn d). rewrite entries_cons.
        apply elem_of_app. right. exact Hin.
Qed.

(** X12.  [load] never creates or removes a variable, and a variable that
    the dictionary does not name keeps its value, whether [load] returns
    or raises. *)
Theorem load_frame (data_dict : list (string * list (string * value)))
    (ignore_missing : bool) (session : gmap string value) :
  let session' := (load value assignable data_dict ignore_missing session).2 in
  dom session' = dom session
  /\ forall name, (forall d, (name, d) ∉ entries value data_dict) ->
                  session' !! name = session !! name.
Proof. apply load_dom_other. Qed.

Lemma load_params_ignore (op_name : string) (params : list (string * value))
    (session : gmap string value) :
  (load_params value assignable op_name params true session).1 = inr tt.
Proof.
  revert session. induction params as [|[p d] rest IH]; intros session.
  - reflexivity.
  - cbn [load_params].
    destruct (session !! variable_name op_name p) as [var|];
      [destruct (assignable var d)|]; apply IH.
Qed.

Lemma load_params_strict_agrees (op_name : string)
    (params : list (string * value)) (session : gmap string value) :
  (load_params value assignable op_name params false session).1 = inr tt ->
  load_params value assignable op_name params true session
  = load_params value assignable op_name params false session.
Proof.
  revert session. induction params as [|[p d] rest IH]; intros session.
  - reflexivity.
  - cbn [load_params].
    destruct (session !! variable_name op_name p) as [var|];
      [destruct (assignable var d)|]; try apply IH; discriminate.
Qed.

(** X13.  With [ignore_missing] set, [load] never raises.  Without it,
    whenever [load] returns it has done exactly what it does with
    [ignore_missing] set: the flag only decides between raising and
    skipping. *)
Theorem load_ignore_missing (data_dict : list (string * list (string * value)))
    (session : gmap string value) :
  (load value assignable data_dict true session).1 = inr tt
  /\ ((load value assignable data_dict false session).1 = inr tt ->
      load value assignable data_dict true session
      = load value assignable data_dict false session).
Proof.
  revert session. induction data_dict as [|[op params] rest IH]; intros session.
  - split; reflexivity.
  - cbn [load].
    pose proof (load_params_ignore op params session) as Hi.
    pose proof (load_params_strict_agrees op params session) as Ha.
    destruct (load_params value assignable op params true session)
      as [[e|[]] s1]; [discriminate|].
    destruct (load_params value assignable op params false session)
      as [[e|[]] s2]; cbn [fst] in *.
    + split; [apply IH|discriminate].
    + specialize (Ha eq_refl). injection Ha as ->.
      split; [apply IH|]. intros H. apply IH, H.
Qed.

Lemma load_params_missing (op_name : string) (params : list (string * value))
    (session : gmap string value) (p : string) (d : value) :
  (p, d) ∈ params -> session !! variable_name op_name p = None ->
  (load_params value assignable op_name params false session).1
  = inl NetOps.ValueError.
Proof.
  revert session. induction params as [|[p' d'] rest IH]; intros session Hin Hm.
  - apply not_elem_of_nil in Hin. contradiction.
  - cbn [load_params].
    destruct (session !! variable_name op_name p') as [var|] eqn:E.
    + destruct (assignable var d'); [|reflexivity].
      apply elem_of_cons in Hin as [[= -> ->]|Hin]; [congruence|].
      apply IH; [exact Hin|].
      rewrite lookup_insert_ne; [exact Hm|]. intros Heq. congruence.
    + reflexivity.
Qed.

(** X14.  Without [ignore_missing], [load] raises ValueError whenever the
    dictionary names a variable that the session does not have. *)
Theorem load_missing_variable (data_dict : list (string * list (string * value)))
    (session : gmap string value) (name : string) (d : value) :
  (name, d) ∈ entries value data_dict -> session !! name = None ->
  (load value assignable data_dict false session).1 = inl NetOps.ValueError.
Proof.
  revert session. induction data_dict as [|[op params] rest IH];
    intros session Hin Hm.
  - apply not_elem_of_nil in Hin. contradiction.
  - cbn [load]. rewrite entries_cons in Hin.
    pose proof (load_params_dom op params false session) as Hd.
    destruct (load_params value assignable op params false session)
      as [[e|[]] s1] eqn:E; cbn [snd] in Hd.
    + apply elem_of_app in Hin as [Hin|Hin].
      * apply list_elem_of_fmap in Hin as ([p d'] & [= -> ->] & Hin).
        rewrite <- (load_params_missing op params session p d' Hin Hm), E.
        reflexivity.
      * (* an earlier refusal: the only exception [load_params] raises *)
        clear -E. revert session E.
        induction params as [|[p' d'] ps IHp]; intros session E; [discriminate|].
        cbn [load_params] in E.
        destruct (session !! variable_name op p') as [var|];
          [destruct (assignable var d')|]; try (injection E as <- _; reflexivity);
          eapply IHp, E.
    + apply elem_of_app in Hin as [Hin|Hin].
      * apply list_elem_of_fmap in Hin as ([p d'] & [= -> ->] & Hin).
        pose proof (load_params_missing op params session p d' Hin Hm) as Hx.
        rewrite E in Hx. discriminate.
      * apply IH; [exact Hin|].
        apply not_elem_of_dom. rewrite Hd. apply not_elem_of_dom, Hm.
Qed.

Lemma load_params_assigned (op_name : string) (params : list (string * value))
    (ignore_missing : bool) (session : gmap string value)
    (p : string) (d var : value) :
  NoDup (variable_name op_name <$> params.*1) ->
  (p, d) ∈ params -> session !! variable_name op_name p = Some var ->
  assignable var d = true ->
  (load_params value assignable op_name params ignore_missing session).1 = inr tt ->
  (load_params value assignable op_name params ignore_missing session).2
    !! variable_name op_name p = Some d.
Proof.
  revert session. induction params as [|[p' d'] rest IH];
    intros session Hnd Hin Hs Ha Hok.
  - apply not_elem_of_nil in Hin. contradiction.
  - cbn [fmap list_fmap fst] in Hnd. apply NoDup_cons in Hnd as [Hnot Hnd].
    cbn [load_params] in *.
    apply elem_of_cons in Hin as [[= -> ->]|Hin].
    + rewrite Hs, Ha in *.
      rewrite load_params_other; [apply lookup_insert_eq|].
      intros q dq Hq Heq. apply Hnot. rewrite <- Heq.
      apply list_elem_of_fmap. exists q. split; [reflexivity|].
      apply list_elem_of_fmap. exists (q, dq). split; [reflexivity|exact Hq].
    + assert (Hne : variable_name op_name p' <> variable_name op_name p).
      { intros Heq. apply Hnot. rewrite Heq.
        apply list_elem_of_fmap. exists p. split; [reflexivity|].
        apply list_elem_of_fmap. exists (p, d). split; [reflexivity|exact Hin]. }
      destruct (session !! variable_name op_name p') as [var'|] eqn:E.
      * destruct (assignable var' d').
        -- apply IH; try assumption. rewrite lookup_insert_ne by exact Hne. exact Hs.
        -- destruct ignore_missing; [|discriminate]. apply IH; assumption.
      * destruct ignore_missing; [|discriminate]. apply IH; assumption.
Qed.

(** X15.  Loading stores the array: when the dictionary names every
    variable once, a variable of the session that it names and whose
    assignment TensorFlow accepts holds the array of the dictionary after
    a [load] that returns. *)
Theorem load_assigns (data_dict : list (string * list (string * value)))
    (ignore_missing : bool) (session : gmap string value)
    (name : string) (d var : value) :
  NoDup (entries value data_dict).*1 ->
  (name, d) ∈ entries value data_dict ->
  session !! name = Some var -> assignable var d = true ->
  (load value assignable data_dict ignore_missing session).1 = inr tt ->
  (load value assignable data_dict ignore_missing session).2 !! name = Some d.
Proof.
  revert session. induction data_dict as [|[op params] rest IH];
    intros session Hnd Hin Hs Ha Hok.
  - apply not_elem_of_nil in Hin. contradiction.
  - rewrite entries_cons, fmap_app in Hnd.
    apply NoDup_app in Hnd as (Hnd1 & Hdisj & Hnd2).
    rewrite <- list_fmap_compose in Hnd1, Hdisj.
    rewrite entries_cons in Hin. cbn [load] in *.
    pose proof (load_params_other op params ignore_missing session) as Ho.
    pose proof (load_params_assigned op params ignore_missing session) as Hset.
    destruct (load_params value assignable op params ignore_missing session)
      as [[e|[]] s1]; [discriminate|]. cbn [fst snd] in *.
    apply elem_of_app in Hin as [Hin|Hin].
    + apply list_elem_of_fmap in Hin as ([p d'] & [= -> ->] & Hin).
      destruct (load_dom_other rest ignore_missing s1) as [_ Hfr].
      rewrite Hfr.
      * apply (Hset p d' var); try assumption; try reflexivity.
        rewrite <- list_fmap_compose. exact Hnd1.
      * intros dx Hx. apply (Hdisj (variable_name op p)).
        -- apply list_elem_of_fmap. exists (p, d'). split; [reflexivity|exact Hin].
        -- apply list_elem_of_fmap. exists (variable_name op p, dx).
           split; [reflexivity|exact Hx].
    + apply IH; try assumption.
      rewrite Ho; [exact Hs|].
      intros p dp Hp Heq. apply (Hdisj name).
      * apply list_elem_of_fmap. exists (p, dp). split; [cbn; congruence|exact Hp].
      * apply list_elem_of_fmap. exists (name, d). split; [reflexivity|exact Hin].
Qed.

End LoadFacts.

Lemma load_missing_variable_witness :
  (load (list nat) ExNet.same_shape ExNet.weights false ∅).1
  = inl NetOps.ValueError.
Proof.
  apply (load_missing_variable ExNet.same_shape ExNet.weights ∅
           "conv1/weights" [1; 2; 3]%nat).
  - apply list_elem_of_here.
  - reflexivity.
Defined.

Lemma load_assigns_witness :
  (load (list nat) ExNet.same_shape ExNet.weights false ExNet.session0).2
    !! "conv1/weights"
  = Some [1; 2; 3]%nat.
Proof.
  apply (load_assigns ExNet.same_shape ExNet.weights false ExNet.session0
           "conv1/weights" [1; 2; 3]%nat [0; 0; 0]%nat).
  - apply NoDup_singleton.
  - apply list_elem_of_here.
  - reflexivity.
  - reflexivity.
  - reflexivity.
Defined.

(** * Further properties of [module/loss_module.py] *)

(** ** The smoothed-L1 transform *)




(** ** The sign of the regression loss *)









(** ** The classification loss and the ignored anchors *)

Lemma kept_spec (labels : list Z) (j : nat) :
  j ∈ kept labels
  <-> exists y, labels !! j = Some y /\ y <> (-1)%Z.
Proof.
  unfold kept, TF.true_positions. rewrite list_elem_of_filter.
  rewrite list_lookup_fmap, elem_of_seq, length_fmap. split.
  - intros [Hj _]. destruct (labels !! j) as [y|]; [|discriminate].
    exists y. split; [reflexivity|].
    cbn in Hj. injection Hj as Hj. apply negb_true_iff, Z.eqb_neq in Hj. exact Hj.
  - intros (y & Hy & Hne). split.
    + rewrite Hy. cbn. f_equal. apply negb_true_iff, Z.eqb_neq, Hne.
    + apply lookup_lt_Some in Hy. lia.
Qed.

Lemma kept_nil (labels : list Z) :
  kept labels = [] <-> forall y, y ∈ labels -> y = (-1)%Z.
Proof.
  split.
  - intros E y [j Hj]%list_elem_of_lookup.
    destruct (decide (y = (-1)%Z)) as [|Hne]; [assumption|]. exfalso.
    assert (Hk : j ∈ kept labels) by (apply kept_spec; eauto).
    rewrite E in Hk. apply not_elem_of_nil in Hk. exact Hk.
  - intros H. destruct (kept labels) as [|j l] eqn:E; [reflexivity|]. exfalso.
    assert (Hk : j ∈ kept labels) by (rewrite E; apply list_elem_of_here).
    apply kept_spec in Hk as (y & Hy & Hne).
    apply Hne, H. eapply list_elem_of_lookup_2, Hy.
Qed.

(** X19.  The classification branch returns on every label tensor of tags
    -1, 0 and 1, and its mean is NaN exactly when every anchor of the
    batch is tagged ignore: nothing in [loss] guards the mean over an
    empty selection. *)
Theorem cls_loss_nan_iff_all_ignored (softmax_xent : list Q -> Z -> Q)
    (B N : nat) (label : tensor Z) (pre_score : tensor Q) :
  B <> 0%nat -> shape label = [B; N] -> wf label ->
  length (data pre_score) = (B * N * 2)%nat ->
  (forall y, y ∈ data label -> y = (-1)%Z \/ y = 0%Z \/ y = 1%Z) ->
  exists cls_loss : TF.float,
    cls_loss_graph softmax_xent B label pre_score = Ok cls_loss
    /\ (cls_loss = TF.NaN <-> forall y, y ∈ data label -> y = (-1)%Z).
Proof.
  intros HB Hs Hwf Hlen Hlab.
  eexists. split; [apply (cls_loss_graph_value softmax_xent B N); assumption|].
  rewrite <- kept_nil. unfold TF.reduce_mean. cbn [data].
  destruct (kept (data label)) as [|j l]; cbn [fmap list_fmap].
  - split; reflexivity.
  - split; discriminate.
Qed.

Lemma cls_loss_nan_iff_all_ignored_witness :
  exists cls_loss : TF.float,
    cls_loss_graph Ex.xent 1 ExNet.all_ignored ExNet.scores = Ok cls_loss
    /\ (cls_loss = TF.NaN
        <-> forall y, y ∈ data ExNet.all_ignored -> y = (-1)%Z).
Proof.
  apply (cls_loss_nan_iff_all_ignored Ex.xent 1 2 ExNet.all_ignored ExNet.scores);
    try solve [reflexivity | discriminate].
  intros y Hy. left.
  apply elem_of_cons in Hy as [->|Hy]; [reflexivity|].
  apply elem_of_cons in Hy as [->|Hy]; [reflexivity|].
  apply not_elem_of_nil in Hy. contradiction.
Defined.

(** X20.  The classification branch never reads the scores of an ignored
    anchor: two score tensors that agree on the two scores of every anchor
    whose tag is not -1 give the same classification loss. *)
Theorem cls_loss_reads_kept_scores_only (softmax_xent : list Q -> Z -> Q)
    (B N : nat) (label : tensor Z) (pre_score pre_score' : tensor Q) :
  B <> 0%nat -> shape label = [B; N] -> wf label ->
  length (data pre_score) = (B * N * 2)%nat ->
  length (data pre_score') = (B * N * 2)%nat ->
  (forall y, y ∈ data label -> y = (-1)%Z \/ y = 0%Z \/ y = 1%Z) ->
  (forall j, (j < B * N)%nat -> nth j (data label) (-1)%Z <> (-1)%Z ->
     nth (j * 2) (data pre_score) 0 = nth (j * 2) (data pre_score') 0
     /\ nth (j * 2 + 1) (data pre_score) 0
        = nth (j * 2 + 1) (data pre_score') 0) ->
  cls_loss_graph softmax_xent B label pre_score
  = cls_loss_graph softmax_xent B label pre_score'.
Proof.
  intros HB Hs Hwf Hlen Hlen' Hlab Hagree.
  rewrite !(cls_loss_graph_value softmax_xent B N) by assumption.
  f_equal. f_equal. f_equal.
  apply list_fmap_ext. intros k j Hk.
  apply list_elem_of_lookup_2, kept_spec in Hk as (y & Hy & Hne).
  assert (Hj : (j < B * N)%nat).
  { apply lookup_lt_Some in Hy. wf_length Hwf Hs. lia. }
  destruct (Hagree j Hj) as [-> ->]; [|reflexivity].
  rewrite (nth_lookup_Some _ _ _ _ Hy). exact Hne.
Qed.

Lemma cls_loss_reads_kept_scores_only_witness :
  cls_loss_graph Ex.xent 1 ExNet.label ExNet.scores
  = cls_loss_graph Ex.xent 1 ExNet.label ExNet.scores'.
Proof.
  apply (cls_loss_reads_kept_scores_only Ex.xent 1 2 ExNet.label ExNet.scores
           ExNet.scores'); try solve [reflexivity | discriminate].
  - intros y Hy.
    apply elem_of_cons in Hy as [->|Hy]; [left; reflexivity|].
    apply elem_of_cons in Hy as [->|Hy]; [right; right; reflexivity|].
    apply not_elem_of_nil in Hy. contradiction.
  - intros j Hj Hne. destruct j as [|[|j]].
    + exfalso. apply Hne. reflexivity.
    + split; reflexivity.
    + cbn in Hj. lia.
Defined.
